(** * A3-W-name: complex-number expression engine (src/app.js)

    Shallow embedding of the core of [app.js]: the [Complex] class, the
    regular-expression tokenizer, the recursive-descent parser, the LISP
    printer, the evaluator and the randomized equivalence tester, together
    with the properties the specification states about them.

    Conventions of the embedding.
    - A JavaScript number is a binary64 [float] (Rocq's primitive floats,
      which compute with the IEEE-754 operations of the machine).
    - A JavaScript string is a [string]; each character stands for one code
      unit in the range 0..255.
    - [undefined], where the source can produce it (an array read past the
      end), is [None] in an [option].
    - A thrown [Error] is the [Err] case of [result]; the constructor of
      [error] records which [throw] statement raised it.
    - The transcendental functions of [Math] ([hypot], [atan2], [pow], [cos],
      [sin]) are implementation-approximated in ECMAScript; they are the
      fields of a [Math.lib] record that the evaluator takes as a parameter. *)

From stdpp Require Import gmap strings.
From Stdlib Require Import ZArith String Ascii List Bool Lia Floats DecimalString.
Import ListNotations.

Local Open Scope Z_scope.

(** String concatenation, the [+] of JavaScript on strings. *)
Infix "+++" := String.append (at level 60, right associativity).

(** * The JavaScript runtime: strings and numbers *)

Module JS.

(** ** Code units and character classes *)

Definition code (c : ascii) : Z := Z.of_N (N_of_ascii c).

(** [\d] *)
Definition is_digit (c : ascii) : bool := (48 <=? code c) && (code c <=? 57).

(** [[A-Za-z_]] *)
Definition is_ident_start (c : ascii) : bool :=
  ((65 <=? code c) && (code c <=? 90)) || ((97 <=? code c) && (code c <=? 122))
  || (code c =? 95).

(** [[A-Za-z0-9_]] *)
Definition is_ident_char (c : ascii) : bool := is_ident_start c || is_digit c.

(** [\s], which is also the set [String.prototype.trim] strips: TAB, LF, VT,
    FF, CR, SPACE and NBSP are its members below code unit 256. *)
Definition is_space (c : ascii) : bool :=
  ((9 <=? code c) && (code c <=? 13)) || (code c =? 32) || (code c =? 160).

(** ** String primitives *)

Fixpoint drop_while (p : ascii -> bool) (s : string) : string :=
  match s with
  | EmptyString => EmptyString
  | String c s' => if p c then drop_while p s' else s
  end.

Fixpoint take_while (p : ascii -> bool) (s : string) : string :=
  match s with
  | EmptyString => EmptyString
  | String c s' => if p c then String c (take_while p s') else EmptyString
  end.

Fixpoint all_chars (p : ascii -> bool) (s : string) : bool :=
  match s with
  | EmptyString => true
  | String c s' => p c && all_chars p s'
  end.

Fixpoint remove_chars (p : ascii -> bool) (s : string) : string :=
  match s with
  | EmptyString => EmptyString
  | String c s' => if p c then remove_chars p s' else String c (remove_chars p s')
  end.

Definition rev_string (s : string) : string :=
  string_of_list_ascii (List.rev (list_ascii_of_string s)).

(** [s.trim()] *)
Definition trim (s : string) : string :=
  rev_string (drop_while is_space (rev_string (drop_while is_space s))).

(** [s.replace(/\s+/g, '')] *)
Definition remove_spaces (s : string) : string := remove_chars is_space s.

(** [s.slice(a)] and [s.slice(a, b)] for [0 <= a <= b] *)
Definition slice_from (a : nat) (s : string) : string :=
  substring a (String.length s - a) s.
Definition slice (a b : nat) (s : string) : string := substring a (b - a) s.

(** [s.indexOf(c)] ([None] for [-1]) *)
Definition indexOf (c : ascii) (s : string) : option nat :=
  String.index 0 (String c EmptyString) s.

Definition is_empty (s : string) : bool :=
  match s with EmptyString => true | _ => false end.

(** ** Numbers *)

Definition isNaN (x : float) : bool := PrimFloat.is_nan x.

(** [x === y] on numbers: IEEE equality ([-0 === 0], [NaN !== NaN]). *)
Definition strict_eq (x y : float) : bool := PrimFloat.eqb x y.

(** [x || d] on numbers: [x] is falsy when it is [0], [-0] or [NaN]. *)
Definition or_else (x d : float) : float :=
  if strict_eq x 0 || isNaN x then d else x.

(** The binary64 value nearest to [num / den] (ties to even), for
    [0 <= num] and [0 < den]: the quotient is computed to more than 64
    bits, with a sticky bit for the remainder, and then rounded. *)
Definition float_of_ratio (num den : Z) : float :=
  if num =? 0 then PrimFloat.zero else
  let s := Z.max 0 (Z.log2 den + 66 - Z.log2 num) in
  let (q, r) := Z.div_eucl (Z.shiftl num s) den in
  let m := 2 * q + (if r =? 0 then 0 else 1) in
  SF2Prim (binary_normalize prec emax m (- s - 1) false).

(** The binary64 value nearest to [m * 10^e], [0 <= m]. *)
Definition float_of_decimal (m e : Z) : float :=
  if 0 <=? e then float_of_ratio (m * 10 ^ e) 1 else float_of_ratio m (10 ^ (- e)).

Definition digit_val (c : ascii) : Z := code c - 48.

Definition digits_val (ds : string) : Z :=
  List.fold_left (fun acc c => 10 * acc + digit_val c) (list_ascii_of_string ds) 0.

Definition Zlen (s : string) : Z := Z.of_nat (String.length s).

(** [ExponentPart_opt] at the end of a literal: nothing, or [e]/[E], an
    optional sign and at least one digit. *)
Definition exponent_part (s : string) : option Z :=
  match s with
  | EmptyString => Some 0
  | String c s1 =>
      if (code c =? 101) || (code c =? 69) then
        let '(neg, ds) :=
          match s1 with
          | String "-" s2 => (true, s2)
          | String "+" s2 => (false, s2)
          | _ => (false, s1)
          end in
        if negb (is_empty ds) && all_chars is_digit ds
        then Some (if neg then - digits_val ds else digits_val ds)
        else None
      else None
  end.

(** [StrUnsignedDecimalLiteral]: [Infinity], [d+.d*(e..)?], [.d+(e..)?] or
    [d+(e..)?]; [None] when the text is not of that shape. *)
Definition unsigned_decimal (s : string) : option float :=
  if String.eqb s "Infinity" then Some PrimFloat.infinity else
  let ip := take_while is_digit s in
  match drop_while is_digit s with
  | String "." r =>
      let fp := take_while is_digit r in
      if is_empty ip && is_empty fp then None else
      match exponent_part (drop_while is_digit r) with
      | Some e => Some (float_of_decimal (digits_val (ip +++ fp)) (e - Zlen fp))
      | None => None
      end
  | r =>
      if is_empty ip then None else
      match exponent_part r with
      | Some e => Some (float_of_decimal (digits_val ip) e)
      | None => None
      end
  end.

Definition radix_digit (radix : Z) (c : ascii) : option Z :=
  let v := if is_digit c then code c - 48
           else if (97 <=? code c) && (code c <=? 102) then code c - 87
           else if (65 <=? code c) && (code c <=? 70) then code c - 55
           else 99 in
  if v <? radix then Some v else None.

Fixpoint radix_val (radix : Z) (acc : Z) (s : string) : option Z :=
  match s with
  | EmptyString => Some acc
  | String c s' =>
      match radix_digit radix c with
      | Some v => radix_val radix (radix * acc + v) s'
      | None => None
      end
  end.

(** [NonDecimalIntegerLiteral]: [0x], [0o], [0b] and at least one digit. *)
Definition non_decimal (s : string) : option float :=
  match s with
  | String "0" (String p ds) =>
      let radix := if (code p =? 120) || (code p =? 88) then 16
                   else if (code p =? 111) || (code p =? 79) then 8
                   else if (code p =? 98) || (code p =? 66) then 2 else 0 in
      if (radix =? 0) || is_empty ds then None else
      match radix_val radix 0 ds with
      | Some v => Some (float_of_ratio v 1)
      | None => None
      end
  | _ => None
  end.

(** [Number(s)] for a string [s] (StringToNumber): surrounding white space
    is dropped, the empty text is [0], a [StrNumericLiteral] is its rounded
    value, and every other text is [NaN]. *)
Definition ToNumber (s : string) : float :=
  let t := trim s in
  if is_empty t then PrimFloat.zero else
  match non_decimal t with
  | Some v => v
  | None =>
      match t with
      | String "-" u =>
          match unsigned_decimal u with
          | Some v => PrimFloat.opp v
          | None => PrimFloat.nan
          end
      | String "+" u =>
          match unsigned_decimal u with Some v => v | None => PrimFloat.nan end
      | _ =>
          match unsigned_decimal t with Some v => v | None => PrimFloat.nan end
      end
  end.

(** ** Number::toString

    For a finite [x > 0], ECMAScript takes integers [n], [k], [s] with
    [k >= 1], [10^(k-1) <= s < 10^k], such that [s * 10^(n-k)] is [x] when
    read back as a number and [k] is as small as possible; among several [s]
    the one closest to [x] is taken. The digits of [s] are then laid out
    according to [n]. *)

(** [x / 10^p] as a fraction, for [x = m * 2^e]. *)
Definition scaled (m e p : Z) : Z * Z :=
  (m * 2 ^ Z.max e 0 * 10 ^ Z.max (- p) 0, 2 ^ Z.max (- e) 0 * 10 ^ Z.max p 0).

(** The least [n] from [n0] on, within [fuel] steps, with [m * 2^e < 10^n]. *)
Fixpoint magnitude (fuel : nat) (m e n0 : Z) : Z :=
  match fuel with
  | O => n0
  | S fuel' =>
      let '(num, den) := scaled m e n0 in
      if num <? den then n0 else magnitude fuel' m e (n0 + 1)
  end.

Definition reads_back (x : float) (s p : Z) : bool :=
  PrimFloat.eqb (float_of_decimal s p) x.

(** The shortest digits: [k] runs from [k] upwards for [fuel] steps. *)
Fixpoint shortest (fuel : nat) (x : float) (m e n k : Z) : Z * Z * Z :=
  let p := n - k in
  let '(num, den) := scaled m e p in
  let lo := num / den in
  let hi := lo + 1 in
  let pick s := if s =? 10 ^ k then (10 ^ (k - 1), n + 1, k) else (s, n, k) in
  match fuel with
  | O => pick lo
  | S fuel' =>
      match reads_back x lo p, reads_back x hi p with
      | true, true =>
          let dlo := num - lo * den in
          let dhi := hi * den - num in
          if (dlo <? dhi) || ((dlo =? dhi) && Z.even lo) then pick lo else pick hi
      | true, false => pick lo
      | false, true => pick hi
      | false, false => shortest fuel' x m e n (k + 1)
      end
  end.

Definition digits_of (z : Z) : string := NilZero.string_of_int (Z.to_int z).

Fixpoint zeros (n : nat) : string :=
  match n with O => EmptyString | S n' => String "0" (zeros n') end.

Definition layout (s n k : Z) : string :=
  let ds := digits_of s in
  if (k <=? n) && (n <=? 21) then ds +++ zeros (Z.to_nat (n - k))
  else if (0 <? n) && (n <=? 21) then
    substring 0 (Z.to_nat n) ds +++ "." +++ slice_from (Z.to_nat n) ds
  else if (-6 <? n) && (n <=? 0) then "0." +++ zeros (Z.to_nat (- n)) +++ ds
  else
    let ex := n - 1 in
    let es := (if ex <? 0 then "-" else "+") +++ digits_of (Z.abs ex) in
    if k =? 1 then ds +++ "e" +++ es
    else substring 0 1 ds +++ "." +++ slice_from 1 ds +++ "e" +++ es.

Definition positive_to_string (x : float) : string :=
  match Prim2SF x with
  | S754_finite _ m e =>
      let est := (Z.log2 (Z.pos m) + e) * 30103 / 100000 in
      let n := magnitude 6 (Z.pos m) e (est - 1) in
      let '(s, n', k) := shortest 17 x (Z.pos m) e n 1 in
      layout s n' k
  | _ => "Infinity"
  end.

(** [String(x)] for a number [x]. *)
Definition NumberToString (x : float) : string :=
  if isNaN x then "NaN"
  else if strict_eq x 0 then "0"
  else if PrimFloat.ltb x 0 then "-" +++ positive_to_string (PrimFloat.opp x)
  else positive_to_string x.

End JS.

(** The two conversions on sample values, as every ECMAScript engine
    computes them. *)
Example ToNumber_samples :
  map JS.ToNumber ["12.5"; " 1.25e1 "; ".5"; "5."; "0x1F"; "-0"; ""; "1e+21"]
    = [12.5; 12.5; 0.5; 5; 31; -0; 0; 1e21]%float
  /\ forallb JS.isNaN (map JS.ToNumber ["+"; "-"; "."; "abc"; "1 2"; "1e"; "-0x1F"]) = true.
Proof. split; vm_compute; reflexivity. Qed.

Example NumberToString_samples :
  map JS.NumberToString
    [3; -1.5; 0.5; 100; 1e21; 0x1.ad7f29abcaf48p-24; 0x1.0c6f7a0b5ed8dp-20;
     0x1.ac53a7e04bcdap+66; 0x1.999999999999ap-4; 0x1.3333333333334p-2;
     0x1p-1074; -0; nan; infinity]%float
  = ["3"; "-1.5"; "0.5"; "100"; "1e+21"; "1e-7"; "0.000001"; "123456789012345680000";
     "0.1"; "0.30000000000000004"; "5e-324"; "0"; "NaN"; "Infinity"].
Proof. vm_compute. reflexivity. Qed.

(** * Failures

    Every [throw new Error(...)] of the core, in source order. *)

Inductive div_site := InComplexDiv | InEvaluator.

Inductive error :=
| EmptyComplexLiteral                 (* "String vazia para número complexo" *)
| DivisionByZero (site : div_site)    (* "Divisão por zero ..." in [div] and in [evalAst] *)
| InvalidToken (near : string)        (* "Token inválido perto de: " + slice *)
| UnexpectedToken (expected found : string)  (* "Esperado '..' mas encontrado '..'" *)
| UnclosedParenthesis                 (* "Parêntese não fechado." *)
| UnclosedCall                        (* "Parêntese da função não fechado." *)
| InvalidPrimary (t : string)         (* "Primário inválido: " + t *)
| TrailingTokens (rest : string)      (* "Tokens não consumidos: " + rest *)
| UnboundVariable (name : string)     (* "Variável '..' sem valor fornecido." *)
| ArityError (fn : string)            (* "conj() precisa de 1 argumento.", "sqrt() ..." *)
| UnknownFunction (name : string)     (* "Função desconhecida: " + name *)
| ComplexExponentUnsupported          (* "Expoente complexo não suportado." *)
| RecursionLimit.                     (* not in the source: the bound on the recursion of
                                         the embedding, which [tokenize] and
                                         [parseExpression] never reach *)

Inductive result (A : Type) :=
| Ok (a : A)
| Err (e : error).
Arguments Ok {A} a.
Arguments Err {A} e.

Definition bind {A B} (r : result A) (k : A -> result B) : result B :=
  match r with
  | Ok a => k a
  | Err e => Err e
  end.

Notation "'let*' x ':=' r 'in' k" := (bind r (fun x => k))
  (at level 10, x pattern, r at level 100, k at level 200).

(** [undefined] coerced to a string, as string concatenation, [RegExp.test]
    and property keys do. *)
Definition ToString (t : option string) : string :=
  match t with
  | Some s => s
  | None => "undefined"
  end.

(** * The [Math] functions the core calls *)

Module Math.

(** The implementation-approximated functions. *)
Record lib := {
  hypot : float -> float -> float;
  atan2 : float -> float -> float;
  pow : float -> float -> float;
  cos : float -> float;
  sin : float -> float
}.

(** [Math.abs], [Math.sqrt] (the IEEE square root) and [Math.sign]. *)
Definition abs (x : float) : float := PrimFloat.abs x.
Definition sqrt (x : float) : float := PrimFloat.sqrt x.

Definition sign (x : float) : float :=
  if PrimFloat.ltb 0 x then 1%float
  else if PrimFloat.ltb x 0 then (-1)%float
  else x.

(** [x] as a natural number, when it is one. *)
Definition to_nat (x : float) : option nat :=
  match Prim2SF x with
  | S754_zero _ => Some O
  | S754_finite false m e =>
      if 0 <=? e then Some (Z.to_nat (Z.pos m * 2 ^ e))
      else if Z.pos m mod 2 ^ (- e) =? 0 then Some (Z.to_nat (Z.pos m / 2 ^ (- e)))
      else None
  | _ => None
  end.

(** A small instance built from the IEEE operations: exact products for
    natural exponents, the square root of the sum of squares, and the first
    terms of the series of the arc tangent, cosine and sine. It is exact at
    the points the assumptions made on a [lib] further down mention, and
    serves to show that they can be met. *)
Definition series : lib := {|
  hypot x y := sqrt (x * x + y * y);
  atan2 y x := let t := (y / x)%float in (t - t * t * t / 3)%float;
  pow b n :=
    match to_nat n with
    | Some k => Nat.iter k (fun acc => (acc * b)%float) 1%float
    | None => PrimFloat.nan
    end;
  cos t := (1 - t * t / 2 + t * t * t * t / 24)%float;
  sin t := (t - t * t * t / 6)%float
|}.

End Math.

(** * class Complex *)

Module Complex.

Record t := mk { re : float; im : float }.

(** [constructor(re, im)]: [Number(re) || 0], [Number(im) || 0]. *)
Definition new (re im : float) : t :=
  {| re := JS.or_else re 0; im := JS.or_else im 0 |}.

(** The loop of [fromString] that looks for the separator: [i] runs from
    [core.length - 1] down to [1]. *)
Fixpoint find_sep (core : string) (i : nat) : option nat :=
  match i with
  | O => None
  | S i' =>
      match String.get i core with
      | Some c => if Ascii.eqb c "+" || Ascii.eqb c "-" then Some i
                  else find_sep core i'
      | None => find_sep core i'
      end
  end.

Definition fromString (s : string) : result t :=
  let s := JS.trim s in
  if JS.is_empty s then Err EmptyComplexLiteral else
  let s := JS.remove_spaces s in
  if String.eqb s "i" then Ok (new 0 1) else
  if String.eqb s "-i" then Ok (new 0 (-1)) else
  match JS.indexOf "i" s with
  | Some idxI =>
      let core := JS.slice 0 idxI s in
      if String.eqb core "" then Ok (new 0 1) else
      if String.eqb core "+" then Ok (new 0 1) else
      if String.eqb core "-" then Ok (new 0 (-1)) else
      match find_sep core (String.length core - 1) with
      | None => Ok (new 0 (JS.ToNumber core))
      | Some sep =>
          let re := JS.ToNumber (JS.slice 0 sep core) in
          let im := JS.ToNumber (JS.slice_from sep core) in
          Ok (new re im)
      end
  | None => Ok (new (JS.ToNumber s) 0)
  end.

Definition toString (z : t) : string :=
  let reStr := JS.NumberToString (re z) in
  let imAbs := Math.abs (im z) in
  if JS.strict_eq (im z) 0 then reStr
  else if JS.strict_eq (re z) 0 then
    if JS.strict_eq (im z) 1 then "i"
    else if JS.strict_eq (im z) (-1) then "-i"
    else JS.NumberToString (im z) +++ "i"
  else
    let sign := if PrimFloat.leb 0 (im z) then "+" else "-" in
    let imPart := if JS.strict_eq imAbs 1 then "i" else JS.NumberToString imAbs +++ "i" in
    reStr +++ sign +++ imPart.

Definition add (a b : t) : t := new (re a + re b) (im a + im b).
Definition sub (a b : t) : t := new (re a - re b) (im a - im b).
Definition mul (a b : t) : t :=
  new (re a * re b - im a * im b) (re a * im b + im a * re b).
Definition div (a b : t) : result t :=
  let denom := (re b * re b + im b * im b)%float in
  if JS.strict_eq denom 0 then Err (DivisionByZero InComplexDiv)
  else Ok (new ((re a * re b + im a * im b) / denom)
               ((im a * re b - re a * im b) / denom)).
Definition conj (a : t) : t := new (re a) (- im a).
Definition neg (a : t) : t := new (- re a) (- im a).

(** [approxEquals(b, eps = 1e-8)] *)
Definition default_eps : float := 0x1.5798ee2308c3ap-27%float.
Definition approxEquals (a b : t) (eps : float) : bool :=
  PrimFloat.ltb (Math.abs (re a - re b)) eps
  && PrimFloat.ltb (Math.abs (im a - im b)) eps.

Section WithMath.
Context (M : Math.lib).

Definition abs (a : t) : float := Math.hypot M (re a) (im a).

Definition pow (a : t) (n : float) : t :=
  let r := abs a in
  let theta := Math.atan2 M (im a) (re a) in
  let rn := Math.pow M r n in
  let thn := (theta * n)%float in
  new (rn * Math.cos M thn) (rn * Math.sin M thn).

Definition sqrt (z : t) : t :=
  let r := abs z in
  let re' := Math.sqrt ((r + re z) / 2) in
  let im' := (Math.sign (JS.or_else (im z) 1) * Math.sqrt ((r - re z) / 2))%float in
  new re' im'.
End WithMath.

End Complex.

(** * Lexer *)

(** The token pattern of [tokenize] is white space, a capturing group and
    white space again; the group has six alternatives, in this order: an
    identifier, digits with a fractional part, digits, one punctuation
    character, two stars, the letter i. An alternative is a function from
    the text at the scanning position to the matched token and the text
    after it. *)

Definition alternative := string -> option (string * string).

(** A letter or underscore, then letters, digits and underscores. *)
Definition alt_ident : alternative := fun s =>
  match s with
  | String c s' =>
      if JS.is_ident_start c
      then Some (String c (JS.take_while JS.is_ident_char s'),
                 JS.drop_while JS.is_ident_char s')
      else None
  | EmptyString => None
  end.

(** Any digits, a dot, at least one digit. *)
Definition alt_decimal : alternative := fun s =>
  match JS.drop_while JS.is_digit s with
  | String "." r =>
      let fp := JS.take_while JS.is_digit r in
      if JS.is_empty fp then None
      else Some (JS.take_while JS.is_digit s +++ "." +++ fp,
                 JS.drop_while JS.is_digit r)
  | _ => None
  end.

(** At least one digit. *)
Definition alt_integer : alternative := fun s =>
  let ds := JS.take_while JS.is_digit s in
  if JS.is_empty ds then None else Some (ds, JS.drop_while JS.is_digit s).

Definition is_punct (c : ascii) : bool :=
  existsb (Ascii.eqb c) ["("; ")"; "+"; "-"; "*"; "/"; "^"; ","]%char.

(** One character of the class: parentheses, plus, minus, star, slash,
    caret, comma. *)
Definition alt_punct : alternative := fun s =>
  match s with
  | String c s' => if is_punct c then Some (String c EmptyString, s') else None
  | EmptyString => None
  end.

(** Two stars. *)
Definition alt_starstar : alternative := fun s =>
  match s with
  | String "*" (String "*" s') => Some ("**", s')
  | _ => None
  end.

(** The letter i. *)
Definition alt_i : alternative := fun s =>
  match s with
  | String "i" s' => Some ("i", s')
  | _ => None
  end.

(** Alternation is ordered: the first alternative that matches is taken.
    (The white space that follows the group always matches, so the engine
    never comes back to try a later alternative.) *)
Fixpoint first_match (alts : list alternative) (s : string) : option (string * string) :=
  match alts with
  | [] => None
  | alt :: alts' =>
      match alt s with
      | Some m => Some m
      | None => first_match alts' s
      end
  end.

Definition token_group : list alternative :=
  [alt_ident; alt_decimal; alt_integer; alt_punct; alt_starstar; alt_i].

(** [re.exec(input)] with [re.lastIndex = idx], accepted only when
    [m.index === idx]: the pattern has to match at the scanning position.
    [rest] is [input.slice(idx)]; the result is [m[1]] and
    [input.slice(re.lastIndex)]. *)
Definition exec_at (rest : string) : option (string * string) :=
  match first_match token_group (JS.drop_while JS.is_space rest) with
  | Some (tok, rest') => Some (tok, JS.drop_while JS.is_space rest')
  | None => None
  end.

(** The [while (idx < input.length)] loop. Each round consumes at least one
    character, so [fuel = input.length] rounds are enough
    ([tokenize_loop_fuel]). *)
Fixpoint tokenize_loop (fuel : nat) (rest : string) (tokens : list string)
  : result (list string) :=
  match rest with
  | EmptyString => Ok tokens
  | _ =>
      match fuel with
      | O => Err RecursionLimit
      | S fuel' =>
          match exec_at rest with
          | None => Err (InvalidToken (JS.slice 0 20 rest))
          | Some (tok, rest') => tokenize_loop fuel' rest' (tokens ++ [tok])
          end
      end
  end.

Definition tokenize (input : string) : result (list string) :=
  tokenize_loop (String.length input) input [].

(** * Syntax trees *)

(** The parser builds four kinds of objects: [{type:'num', value}],
    [{type:'var', name}], [{type:'call', name, args}] and
    [{type:'op', op, args}], the last with [op] one of ['neg'] (one
    argument, [Neg]) and ['+'], ['-'], ['*'], ['/'], ['**'] (two arguments,
    [Bin]). The name of a variable is whatever [consume()] returned, a
    token or [undefined]; the name of a call is always a token, since an
    open parenthesis follows it. *)

Inductive binop := Add | Sub | Mul | Div | Pow.

#[local] Set Warnings "-register-all".
Inductive ast :=
| Num (value : Complex.t)
| Var (name : option string)
| Call (name : string) (args : list ast)
| Neg (arg : ast)
| Bin (op : binop) (lhs rhs : ast).

(** The [op] field of a binary node. *)
Definition binop_symbol (op : binop) : string :=
  match op with
  | Add => "+"
  | Sub => "-"
  | Mul => "*"
  | Div => "/"
  | Pow => "**"
  end.

(** * Parser *)

Definition is_token (t : option string) (s : string) : bool :=
  match t with
  | Some u => String.eqb u s
  | None => false
  end.

(** The three [RegExp.test] calls of [parsePrimary]; [test] coerces its
    argument to a string. *)
Definition starts_with_digit (t : option string) : bool :=
  match ToString t with
  | String c _ => JS.is_digit c
  | EmptyString => false
  end.

Definition is_decimal_text (t : option string) : bool :=
  match JS.drop_while JS.is_digit (ToString t) with
  | String "." r => negb (JS.is_empty r) && JS.all_chars JS.is_digit r
  | _ => false
  end.

Definition is_identifier_text (t : option string) : bool :=
  match ToString t with
  | String c s => JS.is_ident_start c && JS.all_chars JS.is_ident_char s
  | EmptyString => false
  end.

(** [l.join(sep)] on an array of strings *)
Definition join (sep : string) (l : list string) : string :=
  match l with
  | [] => ""
  | x :: l' => fold_left (fun acc y => acc +++ sep +++ y) l' x
  end.

Section Parser.
Variable tokens : list string.

(** [peek()]: [tokens[pos]], [undefined] past the end. *)
Definition peek (pos : nat) : option string := nth_error tokens pos.

(** [consume(expected)]; [consume()] is [consume None]. The new position
    comes with the token. *)
Definition consume (expected : option string) (pos : nat)
  : result (option string * nat) :=
  let t := peek pos in
  match expected with
  | Some e =>
      if negb (JS.is_empty e) && negb (is_token t e)
      then Err (UnexpectedToken e (ToString t))
      else Ok (t, S pos)
  | None => Ok (t, S pos)
  end.

(** The four mutually recursive functions and their loops. [fuel] bounds
    the depth of the calls; [parseExpression] supplies enough of it. *)
Fixpoint parsePrimary (fuel : nat) (pos : nat) {struct fuel} : result (ast * nat) :=
  match fuel with
  | O => Err RecursionLimit
  | S fuel =>
      let t := peek pos in
      if is_token t "(" then
        let* (_, pos) := consume (Some "(") pos in
        let* (node, pos) := parseAddSub fuel pos in
        if negb (is_token (peek pos) ")") then Err UnclosedParenthesis else
        let* (_, pos) := consume (Some ")") pos in
        Ok (node, pos)
      else if starts_with_digit t || is_decimal_text t then
        let* (num, pos) := consume None pos in
        if is_token (peek pos) "i" then
          let* (_, pos) := consume (Some "i") pos in
          let* value := Complex.fromString (ToString num +++ "i") in
          Ok (Num value, pos)
        else Ok (Num (Complex.new (JS.ToNumber (ToString num)) 0), pos)
      else if is_token t "i" then
        let* (_, pos) := consume (Some "i") pos in
        Ok (Num (Complex.new 0 1), pos)
      else if is_identifier_text t then
        let* (id, pos) := consume None pos in
        if is_token (peek pos) "(" then
          let* (_, pos) := consume (Some "(") pos in
          let* (args, pos) :=
            (if negb (is_token (peek pos) ")") then parseArgs fuel [] pos
             else Ok ([], pos)) in
          if negb (is_token (peek pos) ")") then Err UnclosedCall else
          let* (_, pos) := consume (Some ")") pos in
          Ok (Call (ToString id) args, pos)
        else Ok (Var id, pos)
      else if is_token t "+" || is_token t "-" then
        let* (op, pos) := consume None pos in
        let* (prim, pos) := parsePrimary fuel pos in
        if is_token op "-" then Ok (Neg prim, pos) else Ok (prim, pos)
      else Err (InvalidPrimary (ToString t))
  end

(** The [while (true)] loop that collects the arguments of a call. *)
with parseArgs (fuel : nat) (args : list ast) (pos : nat) {struct fuel}
  : result (list ast * nat) :=
  match fuel with
  | O => Err RecursionLimit
  | S fuel =>
      let* (arg, pos) := parseAddSub fuel pos in
      let args := args ++ [arg] in
      if is_token (peek pos) "," then
        let* (_, pos) := consume (Some ",") pos in
        parseArgs fuel args pos
      else Ok (args, pos)
  end

with parsePower (fuel : nat) (pos : nat) {struct fuel} : result (ast * nat) :=
  match fuel with
  | O => Err RecursionLimit
  | S fuel =>
      let* (lhs, pos) := parsePrimary fuel pos in
      loopPower fuel lhs pos
  end

with loopPower (fuel : nat) (lhs : ast) (pos : nat) {struct fuel}
  : result (ast * nat) :=
  match fuel with
  | O => Err RecursionLimit
  | S fuel =>
      if is_token (peek pos) "**" || is_token (peek pos) "^" then
        let* (_, pos) := consume None pos in
        let* (rhs, pos) := parsePower fuel pos in
        loopPower fuel (Bin Pow lhs rhs) pos
      else Ok (lhs, pos)
  end

with parseMulDiv (fuel : nat) (pos : nat) {struct fuel} : result (ast * nat) :=
  match fuel with
  | O => Err RecursionLimit
  | S fuel =>
      let* (node, pos) := parsePower fuel pos in
      loopMulDiv fuel node pos
  end

with loopMulDiv (fuel : nat) (node : ast) (pos : nat) {struct fuel}
  : result (ast * nat) :=
  match fuel with
  | O => Err RecursionLimit
  | S fuel =>
      if is_token (peek pos) "*" || is_token (peek pos) "/" then
        let* (op, pos) := consume None pos in
        let* (rhs, pos) := parsePower fuel pos in
        loopMulDiv fuel (Bin (if is_token op "*" then Mul else Div) node rhs) pos
      else Ok (node, pos)
  end

with parseAddSub (fuel : nat) (pos : nat) {struct fuel} : result (ast * nat) :=
  match fuel with
  | O => Err RecursionLimit
  | S fuel =>
      let* (node, pos) := parseMulDiv fuel pos in
      loopAddSub fuel node pos
  end

with loopAddSub (fuel : nat) (node : ast) (pos : nat) {struct fuel}
  : result (ast * nat) :=
  match fuel with
  | O => Err RecursionLimit
  | S fuel =>
      if is_token (peek pos) "+" || is_token (peek pos) "-" then
        let* (op, pos) := consume None pos in
        let* (rhs, pos) := parseMulDiv fuel pos in
        loopAddSub fuel (Bin (if is_token op "+" then Add else Sub) node rhs) pos
      else Ok (node, pos)
  end.

Definition parse_fuel : nat := 4 * length tokens + 8.

Definition parseExpression : result ast :=
  let* (ast, pos) := parseAddSub parse_fuel 0 in
  if (pos <? length tokens)%nat
  then Err (TrailingTokens (join " " (skipn pos tokens)))
  else Ok ast.
End Parser.

Definition parse (input : string) : result ast :=
  let* toks := tokenize input in parseExpression toks.

(** * Printer *)

(** [astToLisp] returns [ast.name] for a variable, which is [undefined]
    when the name is; [Array.prototype.join] renders an [undefined] element
    as the empty text, string concatenation as the text [undefined]. *)
Definition join_values (sep : string) (l : list (option string)) : string :=
  join sep (map (fun v => match v with Some s => s | None => "" end) l).

Fixpoint astToLisp (a : ast) : option string :=
  match a with
  | Num value => Some (Complex.toString value)
  | Var name => name
  | Call name args =>
      Some ("(" +++ name
            +++ (match args with
                 | [] => ""
                 | _ => " " +++ join_values " " (map astToLisp args)
                 end)
            +++ ")")
  | Neg arg => Some ("(- " +++ ToString (astToLisp arg) +++ ")")
  | Bin Pow lhs rhs =>
      Some ("(" +++ "** " +++ ToString (astToLisp lhs) +++ " "
            +++ ToString (astToLisp rhs) +++ ")")
  | Bin op lhs rhs =>
      Some ("(" +++ binop_symbol op +++ " "
            +++ join_values " " [astToLisp lhs; astToLisp rhs] +++ ")")
  end.

(** * Evaluator *)

(** [s.toLowerCase()] on code units below 256. *)
Definition lower_char (c : ascii) : ascii :=
  let n := JS.code c in
  if ((65 <=? n) && (n <=? 90))
     || ((192 <=? n) && (n <=? 222) && negb (n =? 215))
  then ascii_of_N (Z.to_N (n + 32)) else c.

Fixpoint toLowerCase (s : string) : string :=
  match s with
  | EmptyString => EmptyString
  | String c s' => String (lower_char c) (toLowerCase s')
  end.

Section Evaluator.
Context (M : Math.lib).

(** [vars] holds, for every [name] with [name in vars], the text
    [String(vars[name])]; it covers the properties the object inherits as
    well as its own. *)
Fixpoint evalAst (a : ast) (vars : gmap string string) {struct a}
  : result Complex.t :=
  match a with
  | Num value => Ok value
  | Var name =>
      match vars !! ToString name with
      | None => Err (UnboundVariable (ToString name))
      | Some text => Complex.fromString text
      end
  | Call name args =>
      let fn := toLowerCase name in
      let* args :=
        (fix evalArgs (l : list ast) : result (list Complex.t) :=
           match l with
           | [] => Ok []
           | a :: l' =>
               let* v := evalAst a vars in
               let* vs := evalArgs l' in
               Ok (v :: vs)
           end) args in
      if String.eqb fn "conj" || String.eqb fn "conjugate" then
        match args with
        | [z] => Ok (Complex.conj z)
        | _ => Err (ArityError "conj")
        end
      else if String.eqb fn "sqrt" || String.eqb fn "raiz" then
        match args with
        | [z] => Ok (Complex.sqrt M z)
        | _ => Err (ArityError "sqrt")
        end
      else Err (UnknownFunction name)
  | Neg arg =>
      let* v := evalAst arg vars in
      Ok (Complex.neg v)
  | Bin Add lhs rhs =>
      let* x := evalAst lhs vars in
      let* y := evalAst rhs vars in
      Ok (Complex.add x y)
  | Bin Sub lhs rhs =>
      let* x := evalAst lhs vars in
      let* y := evalAst rhs vars in
      Ok (Complex.sub x y)
  | Bin Mul lhs rhs =>
      let* x := evalAst lhs vars in
      let* y := evalAst rhs vars in
      Ok (Complex.mul x y)
  | Bin Div lhs rhs =>
      let* denom := evalAst rhs vars in
      if JS.strict_eq (Complex.re denom) 0 && JS.strict_eq (Complex.im denom) 0
      then Err (DivisionByZero InEvaluator)
      else
        let* x := evalAst lhs vars in
        Complex.div x denom
  | Bin Pow lhs rhs =>
      let* base := evalAst lhs vars in
      let* ex := evalAst rhs vars in
      if negb (JS.strict_eq (Complex.im ex) 0)
      then Err ComplexExponentUnsupported
      else Ok (Complex.pow M base (Complex.re ex))
  end.

(** Tokenize, parse and evaluate a text. *)
Definition run (input : string) (vars : gmap string string) : result Complex.t :=
  let* a := parse input in evalAst a vars.
End Evaluator.

(** * Equivalence tester *)

(** A [Set] of names, in insertion order. *)
Definition name_eqb (x y : option string) : bool :=
  match x, y with
  | Some a, Some b => String.eqb a b
  | None, None => true
  | _, _ => false
  end.

Definition set_add (x : option string) (set : list (option string))
  : list (option string) :=
  if existsb (name_eqb x) set then set else set ++ [x].

(** [collectVars] visits the arguments of an operator once and those of a
    call twice. *)
Fixpoint collectVars (a : ast) (set : list (option string)) {struct a}
  : list (option string) :=
  let forEach :=
    fix forEach (l : list ast) (set : list (option string)) :=
      match l with
      | [] => set
      | a :: l' => forEach l' (collectVars a set)
      end in
  match a with
  | Num _ => set
  | Var name => set_add name set
  | Call _ args => forEach args (forEach args set)
  | Neg arg => collectVars arg set
  | Bin _ lhs rhs => collectVars rhs (collectVars lhs set)
  end.

Inductive verdict :=
| Equal
| NotEqual (counterexample : gmap string string) (v1 v2 : string).

(** [1e-6] *)
Definition equivalence_eps : float := 0x1.0c6f7a0b5ed8dp-20%float.

Section Equivalence.
Context (M : Math.lib).

(** The properties an object literal inherits from [Object.prototype],
    with their [String()] renderings. *)
Variable Object_prototype : gmap string string.

(** [random k] is the result of the [k]-th call of [Math.random()]. *)
Variable random : nat -> float.

(** [assignment[key] = text]: [__proto__] is an inherited setter, which
    ignores a string; every other key becomes an own property. *)
Definition set_property (assignment : gmap string string) (key text : string)
  : gmap string string :=
  if String.eqb key "__proto__" then assignment else <[key := text]> assignment.

(** The [for (const n of names)] loop; [k] counts the samples drawn. *)
Fixpoint assign_all (names : list (option string))
    (assignment : gmap string string) (k : nat) : gmap string string * nat :=
  match names with
  | [] => (assignment, k)
  | n :: names' =>
      let re := ((random k - 0.5) * 10)%float in
      let im := ((random (S k) - 0.5) * 10)%float in
      let text := JS.NumberToString re +++ (if PrimFloat.leb 0 im then "+" else "")
                  +++ JS.NumberToString im +++ "i" in
      assign_all names' (set_property assignment (ToString n) text) (S (S k))
  end.

(** What [evalAst] sees of [assignment]: own properties first. *)
Definition visible (assignment : gmap string string) : gmap string string :=
  assignment ∪ Object_prototype.

(** The body of the [try] block. *)
Definition try_round (ast1 ast2 : ast) (assignment : gmap string string)
  : result (option verdict) :=
  let* v1 := evalAst M ast1 (visible assignment) in
  let* v2 := evalAst M ast2 (visible assignment) in
  if negb (Complex.approxEquals v1 v2 equivalence_eps)
  then Ok (Some (NotEqual assignment (Complex.toString v1) (Complex.toString v2)))
  else Ok None.

(** The [for (let t = 0; t < trials; t++)] loop, [trials] rounds from
    sample [k] on; the result comes with the number of samples drawn. *)
Fixpoint trials_loop (ast1 ast2 : ast) (names : list (option string))
    (trials : nat) (k : nat) : verdict * nat :=
  match trials with
  | O => (Equal, k)
  | S trials' =>
      let '(assignment, k') := assign_all names ∅ k in
      match try_round ast1 ast2 assignment with
      | Ok (Some v) => (v, k')
      | Ok None => trials_loop ast1 ast2 names trials' k'
      | Err _ => trials_loop ast1 ast2 names trials' k'
      end
  end.

Definition expressionsEquivalent (ast1 ast2 : ast) (trials : nat) : verdict * nat :=
  let vars := collectVars ast2 (collectVars ast1 []) in
  trials_loop ast1 ast2 vars trials 0.
End Equivalence.


(** * Vocabulary of the properties *)

(** A real number as a complex value. *)
Definition real (x : float) : Complex.t := Complex.mk x 0.

(** What the evaluation of the power chain needs of the [Math] functions:
    exact results at the arguments that occur. *)
Definition exact_for_chain (M : Math.lib) : Prop :=
  Math.hypot M 2 0 = 2%float /\ Math.hypot M 3 0 = 3%float /\
  Math.atan2 M 0 2 = 0%float /\ Math.atan2 M 0 3 = 0%float /\
  Math.pow M 3 2 = 9%float /\ Math.pow M 2 9 = 512%float /\
  Math.cos M 0 = 1%float /\ Math.sin M 0 = 0%float.

(** [fromString(z.toString()).approxEquals(z)] *)
Definition round_trip (z : Complex.t) : result bool :=
  let* z' := Complex.fromString (Complex.toString z) in
  Ok (Complex.approxEquals z' z Complex.default_eps).

(** The operand whose evaluation comes first in the source: the right one
    for a division, the left one for the other operators. *)
Definition evaluated_first (op : binop) (lhs rhs : ast) : ast :=
  match op with
  | Div => rhs
  | _ => lhs
  end.




(** Two numbers have no distance when one of them is [NaN] or both are
    the same infinity: their difference is [NaN] then, and only then. *)
Definition no_distance (x y : float) : bool :=
  JS.isNaN x || JS.isNaN y || (PrimFloat.is_infinity x && PrimFloat.eqb x y).

(** Two values differ beyond [eps] when the distance of their real parts
    or of their imaginary parts, computed in binary64 arithmetic, is [eps]
    or more; they are incomparable when one of the two pairs of
    components has no distance. *)
Definition differ_beyond (eps : float) (v1 v2 : Complex.t) : bool :=
  PrimFloat.leb eps (Math.abs (Complex.re v1 - Complex.re v2))
  || PrimFloat.leb eps (Math.abs (Complex.im v1 - Complex.im v2)).

Definition incomparable (v1 v2 : Complex.t) : bool :=
  no_distance (Complex.re v1) (Complex.re v2)
  || no_distance (Complex.im v1) (Complex.im v2).

(** The rounds of the equivalence tester on two trees, for a given sequence
    of samples. *)
Section Rounds.
Context (M : Math.lib).
Variable Object_prototype : gmap string string.
Variable random : nat -> float.
Variables ast1 ast2 : ast.

(** The names the tester binds, and the samples a round draws. *)
Definition tested_names : list (option string) :=
  collectVars ast2 (collectVars ast1 []).
Definition per_round : nat := 2 * length tested_names.

(** The binding of round [t] (rounds count from 0). *)
Definition round_assignment (t : nat) : gmap string string :=
  fst (assign_all random tested_names ∅ (t * per_round)).

(** Both trees evaluate in round [t], to values that are not
    approximately equal. *)
Definition differ_at (t : nat) (v1 v2 : Complex.t) : Prop :=
  evalAst M ast1 (visible Object_prototype (round_assignment t)) = Ok v1 /\
  evalAst M ast2 (visible Object_prototype (round_assignment t)) = Ok v2 /\
  Complex.approxEquals v1 v2 equivalence_eps = false.

Definition round_differs (t : nat) : Prop := exists v1 v2, differ_at t v1 v2.

(** Both trees evaluate in round [t], to values that differ beyond 1e-6
    or are incomparable. *)
Definition unequal_at (t : nat) (v1 v2 : Complex.t) : Prop :=
  evalAst M ast1 (visible Object_prototype (round_assignment t)) = Ok v1 /\
  evalAst M ast2 (visible Object_prototype (round_assignment t)) = Ok v2 /\
  differ_beyond equivalence_eps v1 v2 || incomparable v1 v2 = true.

Definition round_unequal (t : nat) : Prop := exists v1 v2, unequal_at t v1 v2.

End Rounds.

(** * Properties *)

(** ** The lexer *)

Lemma drop_while_length p s :
  (String.length (JS.drop_while p s) <= String.length s)%nat.
Proof.
  induction s as [|c s IH]; simpl; [lia|].
  destruct (p c); simpl; lia.
Qed.

Lemma take_while_nonempty p s :
  JS.is_empty (JS.take_while p s) = false ->
  (String.length (JS.drop_while p s) < String.length s)%nat.
Proof.
  destruct s as [|c s]; simpl; [discriminate|].
  destruct (p c); simpl; [intros _|discriminate].
  pose proof (drop_while_length p s). lia.
Qed.

(** Every alternative of the token group consumes at least one character. *)
Lemma first_match_shorter s tok rest :
  first_match token_group s = Some (tok, rest) ->
  (String.length rest < String.length s)%nat.
Proof.
  unfold token_group, first_match.
  destruct (alt_ident s) as [[t r]|] eqn:Hid.
  { intros [= <- <-]. unfold alt_ident in Hid.
    destruct s as [|c s']; [discriminate|].
    destruct (JS.is_ident_start c); [|discriminate].
    injection Hid as <- <-. pose proof (drop_while_length JS.is_ident_char s').
    simpl. lia. }
  destruct (alt_decimal s) as [[t r]|] eqn:Hdec.
  { intros [= <- <-]. unfold alt_decimal in Hdec.
    pose proof (drop_while_length JS.is_digit s) as Hs.
    destruct (JS.drop_while JS.is_digit s) as [|c r0]; [discriminate|].
    destruct c as [[] [] [] [] [] [] [] []]; try discriminate.
    destruct (JS.is_empty (JS.take_while JS.is_digit r0)); [discriminate|].
    injection Hdec as <- <-. pose proof (drop_while_length JS.is_digit r0).
    simpl in Hs. lia. }
  destruct (alt_integer s) as [[t r]|] eqn:Hint.
  { intros [= <- <-]. unfold alt_integer in Hint.
    destruct (JS.is_empty (JS.take_while JS.is_digit s)) eqn:He; [discriminate|].
    injection Hint as <- <-. now apply take_while_nonempty. }
  destruct (alt_punct s) as [[t r]|] eqn:Hp.
  { intros [= <- <-]. unfold alt_punct in Hp.
    destruct s as [|c s']; [discriminate|].
    destruct (is_punct c); [|discriminate].
    injection Hp as <- <-. simpl. lia. }
  (* the last two alternatives are shadowed by the fourth and the first *)
  destruct (alt_starstar s) as [[t r]|] eqn:Hss.
  { exfalso. unfold alt_starstar in Hss.
    destruct s as [|c s']; [discriminate|].
    destruct c as [[] [] [] [] [] [] [] []]; discriminate. }
  destruct (alt_i s) as [[t r]|] eqn:Hi; [|discriminate].
  exfalso. unfold alt_i in Hi.
  destruct s as [|c s']; [discriminate|].
  destruct c as [[] [] [] [] [] [] [] []]; discriminate.
Qed.

Lemma exec_at_shorter s tok rest :
  exec_at s = Some (tok, rest) ->
  (String.length rest < String.length s)%nat.
Proof.
  unfold exec_at.
  destruct (first_match token_group (JS.drop_while JS.is_space s))
    as [[t r]|] eqn:Hm; [|discriminate].
  intros [= <- <-]. apply first_match_shorter in Hm.
  pose proof (drop_while_length JS.is_space s).
  pose proof (drop_while_length JS.is_space r). lia.
Qed.

(** The bound on the rounds of the scanning loop is never reached. *)
Lemma tokenize_loop_fuel fuel : forall rest tokens,
  (String.length rest <= fuel)%nat ->
  tokenize_loop fuel rest tokens <> Err RecursionLimit.
Proof.
  induction fuel as [|fuel IH]; intros rest tokens Hlen.
  - destruct rest; [discriminate|simpl in Hlen; lia].
  - destruct rest as [|c rest]; [discriminate|].
    cbn [tokenize_loop].
    destruct (exec_at (String c rest)) as [[tok rest']|] eqn:Hex; [|discriminate].
    apply IH. apply exec_at_shorter in Hex. lia.
Qed.

Lemma tokenize_total input : tokenize input <> Err RecursionLimit.
Proof. apply tokenize_loop_fuel. lia. Qed.

Lemma take_while_head p s c r : JS.take_while p s = String c r -> p c = true.
Proof.
  destruct s as [|c' s']; simpl; [discriminate|].
  destruct (p c') eqn:Hp; [|discriminate].
  now intros [= <- _].
Qed.

(** No alternative that can be selected yields the two-star token: the
    single star of the punctuation class comes first. *)
Lemma first_match_not_starstar s tok rest :
  first_match token_group s = Some (tok, rest) -> tok <> "**".
Proof.
  unfold token_group, first_match.
  destruct (alt_ident s) as [[t r]|] eqn:Hid.
  { intros [= <- <-]. unfold alt_ident in Hid.
    destruct s as [|c s']; [discriminate|].
    destruct (JS.is_ident_start c) eqn:Hc; [|discriminate].
    injection Hid as <- <-. intros [= -> _]. discriminate Hc. }
  destruct (alt_decimal s) as [[t r]|] eqn:Hdec.
  { intros [= <- <-]. unfold alt_decimal in Hdec.
    destruct (JS.drop_while JS.is_digit s) as [|c r0]; [discriminate|].
    destruct c as [[] [] [] [] [] [] [] []]; try discriminate Hdec.
    destruct (JS.is_empty (JS.take_while JS.is_digit r0)); [discriminate|].
    injection Hdec as <- <-.
    destruct (JS.take_while JS.is_digit s) as [|d ds] eqn:Hd; simpl.
    - discriminate.
    - apply take_while_head in Hd. intros [= -> _]. discriminate Hd. }
  destruct (alt_integer s) as [[t r]|] eqn:Hint.
  { intros [= <- <-]. unfold alt_integer in Hint.
    destruct (JS.take_while JS.is_digit s) as [|d ds] eqn:Hd; [discriminate|].
    injection Hint as <- <-.
    apply take_while_head in Hd. intros [= -> _]. discriminate Hd. }
  destruct (alt_punct s) as [[t r]|] eqn:Hp.
  { intros [= <- <-]. unfold alt_punct in Hp.
    destruct s as [|c s']; [discriminate|].
    destruct (is_punct c); [|discriminate].
    injection Hp as <- <-. discriminate. }
  destruct (alt_starstar s) as [[t r]|] eqn:Hss.
  { exfalso. unfold alt_starstar in Hss.
    destruct s as [|c s']; [discriminate|].
    destruct c as [[] [] [] [] [] [] [] []]; discriminate. }
  destruct (alt_i s) as [[t r]|] eqn:Hi; [|discriminate].
  exfalso. unfold alt_i in Hi.
  destruct s as [|c s']; [discriminate|].
  destruct c as [[] [] [] [] [] [] [] []]; discriminate.
Qed.

Lemma tokenize_loop_not_starstar fuel : forall rest tokens out,
  ~ In "**" tokens ->
  tokenize_loop fuel rest tokens = Ok out ->
  ~ In "**" out.
Proof.
  induction fuel as [|fuel IH]; intros rest tokens out Hacc.
  - destruct rest; simpl; [intros [= <-]; exact Hacc | discriminate].
  - destruct rest as [|c rest]; [simpl; intros [= <-]; exact Hacc|].
    cbn [tokenize_loop]. unfold exec_at.
    destruct (first_match token_group (JS.drop_while JS.is_space (String c rest)))
      as [[tok rest']|] eqn:Hm; [|discriminate].
    apply IH. intros Hin. apply in_app_or in Hin as [Hin|[Heq|[]]].
    + exact (Hacc Hin).
    + exact (first_match_not_starstar _ _ _ Hm Heq).
Qed.

(** The lexer never produces the token the parser expects for a power
    written with two stars. *)
Lemma tokenize_not_starstar input tokens :
  tokenize input = Ok tokens -> ~ In "**" tokens.
Proof. apply tokenize_loop_not_starstar. intros []. Qed.

(** ** Precedence and associativity *)

Lemma sum_product_value M vars : run M "1+2*3" vars = Ok (real 7).
Proof. vm_compute. reflexivity. Qed.

Lemma caret_chain_tree :
  parse "2^3^2" = Ok (Bin Pow (Num (real 2)) (Bin Pow (Num (real 3)) (Num (real 2)))).
Proof. vm_compute. reflexivity. Qed.

Lemma series_exact_for_chain : exact_for_chain Math.series.
Proof. vm_compute. repeat split. Qed.

(** The two outcomes of a power node whose operands evaluate. *)
Lemma pow_node_real M vars lhs rhs base ex :
  evalAst M lhs vars = Ok base ->
  evalAst M rhs vars = Ok ex ->
  JS.strict_eq (Complex.im ex) 0 = true ->
  evalAst M (Bin Pow lhs rhs) vars = Ok (Complex.pow M base (Complex.re ex)).
Proof.
  intros Hl Hr Him. cbn [evalAst]. rewrite Hl, Hr. cbn [bind].
  rewrite Him. reflexivity.
Qed.

Lemma pow_node_complex M vars lhs rhs base ex :
  evalAst M lhs vars = Ok base ->
  evalAst M rhs vars = Ok ex ->
  JS.strict_eq (Complex.im ex) 0 = false ->
  evalAst M (Bin Pow lhs rhs) vars = Err ComplexExponentUnsupported.
Proof.
  intros Hl Hr Him. cbn [evalAst]. rewrite Hl, Hr. cbn [bind].
  rewrite Him. reflexivity.
Qed.

(** Written with carets the chain groups to the right: 2^(3^2) = 512. *)
Lemma caret_chain_value M vars :
  exact_for_chain M -> run M "2^3^2" vars = Ok (real 512).
Proof.
  intros (Hh2 & Hh3 & Ha2 & Ha3 & Hp32 & Hp29 & Hcos & Hsin).
  assert (Hinner : Complex.pow M (real 3) 2 = real 9).
  { unfold Complex.pow, Complex.abs. cbn [Complex.re Complex.im real].
    rewrite Hh3, Ha3, Hp32.
    replace (0 * 2)%float with 0%float by reflexivity.
    rewrite Hcos, Hsin. reflexivity. }
  assert (Houter : Complex.pow M (real 2) 9 = real 512).
  { unfold Complex.pow, Complex.abs. cbn [Complex.re Complex.im real].
    rewrite Hh2, Ha2, Hp29.
    replace (0 * 9)%float with 0%float by reflexivity.
    rewrite Hcos, Hsin. reflexivity. }
  unfold run. rewrite caret_chain_tree. cbn [bind].
  rewrite (pow_node_real M vars _ _ (real 2) (real 9)).
  - exact (f_equal Ok Houter).
  - reflexivity.
  - rewrite (pow_node_real M vars _ _ (real 3) (real 2)); try reflexivity.
    exact (f_equal Ok Hinner).
  - reflexivity.
Qed.

Lemma caret_chain_value_series vars : run Math.series "2^3^2" vars = Ok (real 512).
Proof. apply caret_chain_value, series_exact_for_chain. Qed.

(** C1 (the part the code breaks). The text "2**3**2" does not evaluate to
    512: the lexer splits each pair of stars into two single stars, and the
    parser rejects the second one as the start of a primary. *)
Theorem star_chain_rejected :
  tokenize "2**3**2" = Ok ["2"; "*"; "*"; "3"; "*"; "*"; "2"] /\
  parse "2**3**2" = Err (InvalidPrimary "*") /\
  forall M vars, run M "2**3**2" vars = Err (InvalidPrimary "*").
Proof.
  split; [|split].
  - vm_compute. reflexivity.
  - vm_compute. reflexivity.
  - intros M vars. unfold run.
    replace (parse "2**3**2") with (@Err ast (InvalidPrimary "*"))
      by (vm_compute; reflexivity).
    reflexivity.
Qed.

(** C8 (the part the code breaks). The text "2**(1+1i)" does not reach the
    evaluator: as for every power written with two stars, the parse fails on
    the second star, so the failure is an invalid primary and not the
    rejection of a complex exponent. *)
Theorem star_complex_exponent_rejected :
  parse "2**(1+1i)" = Err (InvalidPrimary "*") /\
  forall M vars, run M "2**(1+1i)" vars = Err (InvalidPrimary "*").
Proof.
  assert (H : parse "2**(1+1i)" = Err (InvalidPrimary "*"))
    by (vm_compute; reflexivity).
  split; [exact H|]. intros M vars. unfold run. rewrite H. reflexivity.
Qed.

(** Written with a caret, the same expression is rejected for its exponent. *)
Lemma caret_complex_exponent M vars :
  run M "2^(1+1i)" vars = Err ComplexExponentUnsupported.
Proof. vm_compute. reflexivity. Qed.

(** ** Rendering *)

(** C5. The text "3+4*i" has five tokens; the star keeps the numeral 4 and
    the token i apart, so the product is a multiplication node over the
    literals 4 and i, and the tree renders in prefix form as the text
    (+ 3 (times 4 i)) with the star as the symbol of the product. *)
Theorem canonical_rendering :
  tokenize "3+4*i" = Ok ["3"; "+"; "4"; "*"; "i"] /\
  parse "3+4*i"
    = Ok (Bin Add (Num (real 3)) (Bin Mul (Num (real 4)) (Num (Complex.mk 0 1)))) /\
  (let* a := parse "3+4*i" in Ok (astToLisp a))
    = Ok (Some ("(+ 3 (" +++ "* 4 i))")).
Proof. repeat split; vm_compute; reflexivity. Qed.

(** When the token i follows the numeral directly, the two fuse into one
    imaginary literal. *)
Lemma adjacent_imaginary_literal :
  parse "3+4i" = Ok (Bin Add (Num (real 3)) (Num (Complex.mk 0 4))).
Proof. vm_compute. reflexivity. Qed.

(** ** Round trip through the text form *)

Lemma default_eps_value : Complex.default_eps = JS.ToNumber "1e-8".
Proof. vm_compute. reflexivity. Qed.

Lemma equivalence_eps_value : equivalence_eps = JS.ToNumber "1e-6".
Proof. vm_compute. reflexivity. Qed.

Lemma round_trip_samples :
  round_trip (Complex.new 3 4) = Ok true /\
  round_trip (Complex.new (-2) (-5)) = Ok true /\
  round_trip (Complex.new 0 1) = Ok true /\
  round_trip (Complex.new 0 (-1)) = Ok true /\
  round_trip (Complex.new 0 4) = Ok true /\
  round_trip (Complex.new 3 0) = Ok true /\
  round_trip (Complex.new 1.5 (-2.25)) = Ok true.
Proof. repeat split; vm_compute; reflexivity. Qed.

(** A bare sign in front of the marker is read as a unit when nothing
    precedes it. *)
Lemma signed_unit_alone :
  Complex.fromString "+i" = Ok (Complex.mk 0 1) /\
  Complex.fromString "-i" = Ok (Complex.mk 0 (-1)).
Proof. split; vm_compute; reflexivity. Qed.

(** C6 (the part the code breaks). The value 3+i is printed as the text
    3+i, which is read back as 3: after the split at the sign, the
    imaginary numeral is the bare sign, not a number, and counts as 0. The
    round trip fails for it, and likewise for 3-i. *)
Theorem round_trip_unit_imaginary :
  Complex.toString (Complex.new 3 1) = "3+i" /\
  Complex.fromString "3+i" = Ok (real 3) /\
  round_trip (Complex.new 3 1) = Ok false /\
  round_trip (Complex.new 3 (-1)) = Ok false.
Proof. repeat split; vm_compute; reflexivity. Qed.

(** ** Variables *)

(** The constructor never stores [NaN]. *)
Lemma or_else_zero_not_nan x : JS.isNaN (JS.or_else x 0) = false.
Proof.
  unfold JS.or_else.
  destruct (JS.strict_eq x 0); cbn [orb]; [reflexivity|].
  destruct (JS.isNaN x) eqn:Hx; [reflexivity|exact Hx].
Qed.

Lemma new_not_nan a b :
  JS.isNaN (Complex.re (Complex.new a b)) = false /\
  JS.isNaN (Complex.im (Complex.new a b)) = false.
Proof. split; apply or_else_zero_not_nan. Qed.

(** [fromString] has one failure, the empty text; every other text is read
    as some pair of numbers handed to the constructor. *)
Lemma fromString_cases s :
  (JS.is_empty (JS.trim s) = true /\ Complex.fromString s = Err EmptyComplexLiteral)
  \/ (JS.is_empty (JS.trim s) = false
      /\ exists a b, Complex.fromString s = Ok (Complex.new a b)).
Proof.
  unfold Complex.fromString.
  destruct (JS.is_empty (JS.trim s)); [left; split; reflexivity|right; split; [reflexivity|]].
  repeat match goal with
  | |- context [if ?c then _ else _] => destruct c
  | |- context [match ?o with Some _ => _ | None => _ end] => destruct o
  end; eauto.
Qed.

(** C2, as the code has it. A variable bound to the text [text] evaluates
    to [fromString text]: the evaluation fails exactly when the text is
    empty or blank, and every other text, a malformed one included, yields
    a value, whose components are numbers and never [NaN]. *)
Theorem bound_variable_evaluation M (vars : gmap string string) name text :
  vars !! ToString name = Some text ->
  evalAst M (Var name) vars = Complex.fromString text /\
  (JS.is_empty (JS.trim text) = true ->
   evalAst M (Var name) vars = Err EmptyComplexLiteral) /\
  (JS.is_empty (JS.trim text) = false ->
   exists z, evalAst M (Var name) vars = Ok z
             /\ JS.isNaN (Complex.re z) = false /\ JS.isNaN (Complex.im z) = false).
Proof.
  intros Hbound.
  assert (Heval : evalAst M (Var name) vars = Complex.fromString text).
  { cbn [evalAst]. rewrite Hbound. reflexivity. }
  rewrite Heval. split; [reflexivity|].
  destruct (fromString_cases text) as [[He Hr]|[He (a & b & Hr)]]; rewrite He, Hr.
  - split; [reflexivity|discriminate].
  - split; [discriminate|]. intros _. exists (Complex.new a b).
    split; [reflexivity|apply new_not_nan].
Qed.

Lemma bound_variable_evaluation_witness :
  exists z, evalAst Math.series (Var (Some "x")) {[ "x" := "-2-5i" ]} = Ok z
            /\ JS.isNaN (Complex.re z) = false /\ JS.isNaN (Complex.im z) = false.
Proof.
  apply (bound_variable_evaluation Math.series {[ "x" := "-2-5i" ]} (Some "x") "-2-5i").
  - reflexivity.
  - reflexivity.
Defined.

(** The text "abc" is no complex literal, and the variable bound to it
    evaluates to 0 instead of failing. *)
Lemma malformed_binding_value :
  evalAst Math.series (Var (Some "x")) {[ "x" := "abc" ]} = Ok (real 0).
Proof. vm_compute. reflexivity. Qed.

(** ** Order of evaluation *)

(** C3, as the code has it. The failure of the operand evaluated first is
    the failure of the node, whatever the other operand does: that is the
    left operand for a sum, difference, product or power, and the right
    operand for a quotient. *)
Theorem first_operand_failure M vars op lhs rhs e :
  evalAst M (evaluated_first op lhs rhs) vars = Err e ->
  evalAst M (Bin op lhs rhs) vars = Err e.
Proof.
  intros H. destruct op; cbn [evaluated_first] in H; cbn [evalAst];
    rewrite H; reflexivity.
Qed.

Lemma first_operand_failure_witness :
  evalAst Math.series (Bin Add (Var (Some "x")) (Var (Some "y"))) ∅
  = Err (UnboundVariable "x").
Proof.
  apply (first_operand_failure Math.series ∅ Add (Var (Some "x")) (Var (Some "y"))).
  reflexivity.
Defined.

(** Both operands of the quotient x/y are unbound, and the failure
    reported is the one of the right operand. *)
Lemma quotient_reports_right_operand :
  evalAst Math.series (Var (Some "x")) ∅ = Err (UnboundVariable "x") /\
  evalAst Math.series (Var (Some "y")) ∅ = Err (UnboundVariable "y") /\
  evalAst Math.series (Bin Div (Var (Some "x")) (Var (Some "y"))) ∅
  = Err (UnboundVariable "y").
Proof. repeat split; vm_compute; reflexivity. Qed.

(** ** Division by zero *)

(** C4. A quotient whose right operand evaluates to zero fails in the
    evaluator, whatever the left operand is and before [Complex.div] is
    called; [Complex.div] fails on its own when the squared modulus of the
    divisor is zero; the texts "1/0", and "1/x" with x bound to "0", both
    fail with a division by zero. *)
Theorem division_by_zero M :
  (forall vars lhs rhs denom,
      evalAst M rhs vars = Ok denom ->
      JS.strict_eq (Complex.re denom) 0 && JS.strict_eq (Complex.im denom) 0 = true ->
      evalAst M (Bin Div lhs rhs) vars = Err (DivisionByZero InEvaluator)) /\
  (forall a b,
      JS.strict_eq (Complex.re b * Complex.re b + Complex.im b * Complex.im b) 0 = true ->
      Complex.div a b = Err (DivisionByZero InComplexDiv)) /\
  run M "1/0" ∅ = Err (DivisionByZero InEvaluator) /\
  run M "1/x" {[ "x" := "0" ]} = Err (DivisionByZero InEvaluator).
Proof.
  split; [|split; [|split]].
  - intros vars lhs rhs denom Hr Hz. cbn [evalAst]. rewrite Hr. cbn [bind].
    rewrite Hz. reflexivity.
  - intros a b Hz. unfold Complex.div. rewrite Hz. reflexivity.
  - vm_compute. reflexivity.
  - vm_compute. reflexivity.
Qed.

Lemma division_by_zero_witness :
  evalAst Math.series (Bin Div (Var (Some "x")) (Num (real 0))) ∅
    = Err (DivisionByZero InEvaluator) /\
  Complex.div (real 1) (real 0) = Err (DivisionByZero InComplexDiv).
Proof.
  split.
  - apply (proj1 (division_by_zero Math.series) ∅ (Var (Some "x")) (Num (real 0)) (real 0));
      reflexivity.
  - apply (proj1 (proj2 (division_by_zero Math.series)) (real 1) (real 0)).
    reflexivity.
Defined.

(** The zero check of [Complex.div] is reachable from the evaluator: the
    square of a small divisor underflows to zero. *)
Lemma tiny_divisor :
  run Math.series "1/x" {[ "x" := "1e-200" ]} = Err (DivisionByZero InComplexDiv).
Proof. vm_compute. reflexivity. Qed.

(** ** Components that are not finite *)







(** The product of two large reals overflows, and the infinity is kept. *)
Lemma overflow_kept :
  run Math.series "x*x" {[ "x" := "1e200" ]} = Ok (real infinity).
Proof. vm_compute. reflexivity. Qed.


(** ** Parsing past the end of the tokens *)

Lemma peek_exhausted tokens pos :
  (length tokens <= pos)%nat -> peek tokens pos = None.
Proof. intros H. now apply nth_error_None. Qed.

Lemma peek_in tokens pos t : peek tokens pos = Some t -> In t tokens.
Proof. apply nth_error_In. Qed.

(** Read as a string, [undefined] passes the identifier test and no other. *)
Lemma undefined_is_identifier :
  is_token None "(" = false /\ starts_with_digit None = false /\
  is_decimal_text None = false /\ is_token None "i" = false /\
  is_identifier_text None = true.
Proof. repeat split. Qed.

(** At an exhausted position [parsePrimary] does not fail: it returns a
    variable named [undefined] and steps past the end. *)
Lemma parsePrimary_exhausted tokens fuel pos :
  (length tokens <= pos)%nat ->
  parsePrimary tokens (S fuel) pos = Ok (Var None, S pos).
Proof.
  intros H. cbn [parsePrimary]. rewrite (peek_exhausted tokens pos H).
  cbn [is_token]. change (starts_with_digit None || is_decimal_text None) with false.
  change (is_identifier_text None) with true. cbv iota.
  unfold consume. rewrite (peek_exhausted tokens pos H). cbn [bind].
  rewrite (peek_exhausted tokens (S pos)) by lia. reflexivity.
Qed.

(** ** The recursion of the parser *)

Lemma consume_ok tokens expected pos t pos' :
  consume tokens expected pos = Ok (t, pos') -> pos' = S pos /\ t = peek tokens pos.
Proof.
  unfold consume. destruct expected as [e|].
  - destruct (negb (JS.is_empty e) && negb (is_token (peek tokens pos) e));
      [discriminate|]. now intros [= <- <-].
  - now intros [= <- <-].
Qed.

Lemma consume_err tokens expected pos e :
  consume tokens expected pos = Err e -> exists x y, e = UnexpectedToken x y.
Proof.
  unfold consume. destruct expected as [x|]; [|discriminate].
  destruct (negb (JS.is_empty x) && negb (is_token (peek tokens pos) x));
    [|discriminate]. intros [= <-]. eauto.
Qed.

Lemma fromString_err s e : Complex.fromString s = Err e -> e = EmptyComplexLiteral.
Proof.
  destruct (fromString_cases s) as [[_ ->]|[_ (a & b & ->)]];
    [now intros [= <-]|discriminate].
Qed.

Lemma is_token_peek tokens pos s :
  is_token (peek tokens pos) s = true -> (pos < length tokens)%nat.
Proof.
  unfold is_token. destruct (peek tokens pos) eqn:H; [|discriminate].
  intros _. apply nth_error_Some. unfold peek in H. congruence.
Qed.

(** Inversion of the equations [body = outcome] in the context, where
    [body] is built from [let*], [if] and results. *)
Ltac invert_bodies :=
  repeat match goal with
  | H : bind ?r _ = _ |- _ =>
      let E := fresh "E" in
      destruct r as [[? ?]|?] eqn:E; cbn [bind] in H
  | H : (if ?c then _ else _) = Ok _ |- _ =>
      let C := fresh "C" in destruct c eqn:C
  | H : (if ?c then _ else _) = Err _ |- _ =>
      let C := fresh "C" in destruct c eqn:C
  | H : Ok _ = Ok _ |- _ => inversion H; subst; clear H
  | H : Err _ = Err _ |- _ => inversion H; subst; clear H
  | H : Ok _ = Err _ |- _ => discriminate H
  | H : Err _ = Ok _ |- _ => discriminate H
  end.

(** The facts the conditions of the source give about the position. *)
Ltac position_facts :=
  repeat match goal with
  | H : negb _ = false |- _ => apply negb_false_iff in H
  | H : _ || _ = true |- _ => apply orb_true_iff in H; destruct H as [H|H]
  | H : is_token (peek _ _) _ = true |- _ => apply is_token_peek in H
  | H : consume _ _ _ = Ok _ |- _ => apply consume_ok in H; destruct H as [-> ->]
  end.

Section ParserRecursion.
Variable tokens : list string.

(** Every function that succeeds leaves the position further on; a loop
    may leave it where it was. *)
Lemma parser_progress fuel :
  (forall pos a pos', parsePrimary tokens fuel pos = Ok (a, pos') -> (pos < pos')%nat) /\
  (forall args pos a pos', parseArgs tokens fuel args pos = Ok (a, pos') -> (pos < pos')%nat) /\
  (forall pos a pos', parsePower tokens fuel pos = Ok (a, pos') -> (pos < pos')%nat) /\
  (forall lhs pos a pos', loopPower tokens fuel lhs pos = Ok (a, pos') -> (pos <= pos')%nat) /\
  (forall pos a pos', parseMulDiv tokens fuel pos = Ok (a, pos') -> (pos < pos')%nat) /\
  (forall node pos a pos', loopMulDiv tokens fuel node pos = Ok (a, pos') -> (pos <= pos')%nat) /\
  (forall pos a pos', parseAddSub tokens fuel pos = Ok (a, pos') -> (pos < pos')%nat) /\
  (forall node pos a pos', loopAddSub tokens fuel node pos = Ok (a, pos') -> (pos <= pos')%nat).
Proof.
  induction fuel as [|fuel (IHp & IHa & IHw & IHlw & IHm & IHlm & IHs & IHls)].
  { repeat split; intros; discriminate. }
  repeat split; intros until pos'; intros H;
    cbn [parsePrimary parseArgs parsePower loopPower parseMulDiv loopMulDiv
         parseAddSub loopAddSub] in H;
    invert_bodies;
    position_facts;
    repeat match goal with
    | E : parsePrimary _ _ _ = Ok _ |- _ => apply IHp in E
    | E : parseArgs _ _ _ _ = Ok _ |- _ => apply IHa in E
    | E : parsePower _ _ _ = Ok _ |- _ => apply IHw in E
    | E : loopPower _ _ _ _ = Ok _ |- _ => apply IHlw in E
    | E : parseMulDiv _ _ _ = Ok _ |- _ => apply IHm in E
    | E : loopMulDiv _ _ _ _ = Ok _ |- _ => apply IHlm in E
    | E : parseAddSub _ _ _ = Ok _ |- _ => apply IHs in E
    | E : loopAddSub _ _ _ _ = Ok _ |- _ => apply IHls in E
    end; lia.
Qed.

Ltac progress_facts fuel :=
  let P := fresh "P" in
  pose proof (parser_progress fuel) as P;
  repeat match goal with
  | E : parsePrimary _ _ _ = Ok _ |- _ => apply (proj1 P) in E
  | E : parseArgs _ _ _ _ = Ok _ |- _ => apply (proj1 (proj2 P)) in E
  | E : parsePower _ _ _ = Ok _ |- _ => apply (proj1 (proj2 (proj2 P))) in E
  | E : loopPower _ _ _ _ = Ok _ |- _ => apply (proj1 (proj2 (proj2 (proj2 P)))) in E
  | E : parseMulDiv _ _ _ = Ok _ |- _ =>
      apply (proj1 (proj2 (proj2 (proj2 (proj2 P))))) in E
  | E : loopMulDiv _ _ _ _ = Ok _ |- _ =>
      apply (proj1 (proj2 (proj2 (proj2 (proj2 (proj2 P)))))) in E
  | E : parseAddSub _ _ _ = Ok _ |- _ =>
      apply (proj1 (proj2 (proj2 (proj2 (proj2 (proj2 (proj2 P))))))) in E
  | E : loopAddSub _ _ _ _ = Ok _ |- _ =>
      apply (proj2 (proj2 (proj2 (proj2 (proj2 (proj2 (proj2 P))))))) in E
  end.

(** The failures of [consume] and [fromString] are their own. *)
Ltac foreign_failure :=
  match goal with
  | E : consume _ _ _ = Err _ |- _ =>
      apply consume_err in E; destruct E as (? & ? & ?); discriminate
  | E : Complex.fromString _ = Err _ |- _ =>
      apply fromString_err in E; discriminate
  end.

(** With [4 * r + c] units of fuel, [r] the number of tokens left and [c]
    a constant of the function, the bound on the recursion is not reached. *)
Lemma parser_fuel fuel :
  (forall pos, (4 * (length tokens - pos) + 1 <= fuel)%nat ->
     parsePrimary tokens fuel pos <> Err RecursionLimit) /\
  (forall args pos, (4 * (length tokens - pos) + 5 <= fuel)%nat ->
     parseArgs tokens fuel args pos <> Err RecursionLimit) /\
  (forall pos, (4 * (length tokens - pos) + 2 <= fuel)%nat ->
     parsePower tokens fuel pos <> Err RecursionLimit) /\
  (forall lhs pos, (4 * (length tokens - pos) + 1 <= fuel)%nat ->
     loopPower tokens fuel lhs pos <> Err RecursionLimit) /\
  (forall pos, (4 * (length tokens - pos) + 3 <= fuel)%nat ->
     parseMulDiv tokens fuel pos <> Err RecursionLimit) /\
  (forall node pos, (4 * (length tokens - pos) + 2 <= fuel)%nat ->
     loopMulDiv tokens fuel node pos <> Err RecursionLimit) /\
  (forall pos, (4 * (length tokens - pos) + 4 <= fuel)%nat ->
     parseAddSub tokens fuel pos <> Err RecursionLimit) /\
  (forall node pos, (4 * (length tokens - pos) + 3 <= fuel)%nat ->
     loopAddSub tokens fuel node pos <> Err RecursionLimit).
Proof.
  induction fuel as [|fuel (IHp & IHa & IHw & IHlw & IHm & IHlm & IHs & IHls)].
  { repeat split; intros; lia. }
  repeat split; intros until pos; intros Hfuel H;
    cbn [parsePrimary parseArgs parsePower loopPower parseMulDiv loopMulDiv
         parseAddSub loopAddSub] in H;
    invert_bodies; try foreign_failure;
    progress_facts fuel; position_facts;
    match goal with
    | E : parsePrimary _ _ _ = Err _ |- _ => revert E; apply IHp; lia
    | E : parseArgs _ _ _ _ = Err _ |- _ => revert E; apply IHa; lia
    | E : parsePower _ _ _ = Err _ |- _ => revert E; apply IHw; lia
    | E : loopPower _ _ _ _ = Err _ |- _ => revert E; apply IHlw; lia
    | E : parseMulDiv _ _ _ = Err _ |- _ => revert E; apply IHm; lia
    | E : loopMulDiv _ _ _ _ = Err _ |- _ => revert E; apply IHlm; lia
    | E : parseAddSub _ _ _ = Err _ |- _ => revert E; apply IHs; lia
    | E : loopAddSub _ _ _ _ = Err _ |- _ => revert E; apply IHls; lia
    end.
Qed.

(** [parseExpression] always comes to a result of the source: a tree or
    one of its failures. *)
Lemma parseExpression_total : parseExpression tokens <> Err RecursionLimit.
Proof.
  unfold parseExpression, parse_fuel. intros H.
  invert_bodies.
  revert E. apply (parser_fuel (4 * length tokens + 8)). lia.
Qed.

(** An invalid primary is always one of the tokens: running out of
    tokens is never reported as one. *)
Lemma parser_invalid_primary fuel t :
  (forall pos, parsePrimary tokens fuel pos = Err (InvalidPrimary t) -> In t tokens) /\
  (forall args pos, parseArgs tokens fuel args pos = Err (InvalidPrimary t) -> In t tokens) /\
  (forall pos, parsePower tokens fuel pos = Err (InvalidPrimary t) -> In t tokens) /\
  (forall lhs pos, loopPower tokens fuel lhs pos = Err (InvalidPrimary t) -> In t tokens) /\
  (forall pos, parseMulDiv tokens fuel pos = Err (InvalidPrimary t) -> In t tokens) /\
  (forall node pos, loopMulDiv tokens fuel node pos = Err (InvalidPrimary t) -> In t tokens) /\
  (forall pos, parseAddSub tokens fuel pos = Err (InvalidPrimary t) -> In t tokens) /\
  (forall node pos, loopAddSub tokens fuel node pos = Err (InvalidPrimary t) -> In t tokens).
Proof.
  induction fuel as [|fuel (IHp & IHa & IHw & IHlw & IHm & IHlm & IHs & IHls)].
  { repeat split; intros; discriminate. }
  repeat split; intros until pos; intros H;
    cbn [parsePrimary parseArgs parsePower loopPower parseMulDiv loopMulDiv
         parseAddSub loopAddSub] in H;
    invert_bodies; try foreign_failure;
    try match goal with
    | E : parsePrimary _ _ _ = Err _ |- _ => exact (IHp _ E)
    | E : parseArgs _ _ _ _ = Err _ |- _ => exact (IHa _ _ E)
    | E : parsePower _ _ _ = Err _ |- _ => exact (IHw _ E)
    | E : loopPower _ _ _ _ = Err _ |- _ => exact (IHlw _ _ E)
    | E : parseMulDiv _ _ _ = Err _ |- _ => exact (IHm _ E)
    | E : loopMulDiv _ _ _ _ = Err _ |- _ => exact (IHlm _ _ E)
    | E : parseAddSub _ _ _ = Err _ |- _ => exact (IHs _ E)
    | E : loopAddSub _ _ _ _ = Err _ |- _ => exact (IHls _ _ E)
    end.
  (* the [throw] of [parsePrimary] itself *)
  destruct (peek tokens pos) as [s|] eqn:Hpeek.
  - exact (peek_in tokens pos s Hpeek).
  - discriminate.
Qed.

Lemma parseExpression_invalid_primary t :
  parseExpression tokens = Err (InvalidPrimary t) -> In t tokens.
Proof.
  unfold parseExpression. intros H. invert_bodies.
  exact (proj1 (proj2 (proj2 (proj2 (proj2 (proj2 (proj2
           (parser_invalid_primary (parse_fuel tokens) t))))))) 0%nat E).
Qed.
End ParserRecursion.

(** ** The room for the recursion *)

Section FuelSteps.
Variable tokens : list string.
Variables fuel0 fuel1 : nat.

(** The functions agree at two bounds wherever the first is not reached. *)
Definition bounds_agree (a b : nat) : Prop :=
  (forall pos, parsePrimary tokens a pos <> Err RecursionLimit ->
     parsePrimary tokens b pos = parsePrimary tokens a pos) /\
  (forall args pos, parseArgs tokens a args pos <> Err RecursionLimit ->
     parseArgs tokens b args pos = parseArgs tokens a args pos) /\
  (forall pos, parsePower tokens a pos <> Err RecursionLimit ->
     parsePower tokens b pos = parsePower tokens a pos) /\
  (forall lhs pos, loopPower tokens a lhs pos <> Err RecursionLimit ->
     loopPower tokens b lhs pos = loopPower tokens a lhs pos) /\
  (forall pos, parseMulDiv tokens a pos <> Err RecursionLimit ->
     parseMulDiv tokens b pos = parseMulDiv tokens a pos) /\
  (forall node pos, loopMulDiv tokens a node pos <> Err RecursionLimit ->
     loopMulDiv tokens b node pos = loopMulDiv tokens a node pos) /\
  (forall pos, parseAddSub tokens a pos <> Err RecursionLimit ->
     parseAddSub tokens b pos = parseAddSub tokens a pos) /\
  (forall node pos, loopAddSub tokens a node pos <> Err RecursionLimit ->
     loopAddSub tokens b node pos = loopAddSub tokens a node pos).

Hypothesis Hagree : bounds_agree fuel0 fuel1.

(** One step through two bodies that differ in the bound of their calls;
    [L] says that the second body does not reach its bound. *)
Ltac in_step L :=
  let live Y := (let Hbad := fresh in intros Hbad; apply L; rewrite Hbad; reflexivity) in
  let call Hg X Y :=
    (let Hlive := fresh "Hlive" in
     assert (Hlive : Y <> Err RecursionLimit) by live Y;
     rewrite (Hg _ Hlive) || rewrite (Hg _ _ Hlive)) in
  lazymatch goal with
  | |- bind (if ?c then _ else _) _ = bind (if ?c then _ else _) _ =>
      let C := fresh "C" in destruct c eqn:C; rewrite ?C in L
  | |- bind ?X _ = bind ?X _ =>
      let E := fresh "E" in
      destruct X as [[? ?]|?] eqn:E; rewrite ?E in L; cbn [bind] in L |- *
  | |- bind (parsePrimary _ _ ?p) _ = bind ?Y _ =>
      call (proj1 Hagree) tt Y
  | |- bind (parseArgs _ _ _ _) _ = bind ?Y _ =>
      call (proj1 (proj2 Hagree)) tt Y
  | |- bind (parsePower _ _ _) _ = bind ?Y _ =>
      call (proj1 (proj2 (proj2 Hagree))) tt Y
  | |- bind (parseMulDiv _ _ _) _ = bind ?Y _ =>
      call (proj1 (proj2 (proj2 (proj2 (proj2 Hagree))))) tt Y
  | |- bind (parseAddSub _ _ _) _ = bind ?Y _ =>
      call (proj1 (proj2 (proj2 (proj2 (proj2 (proj2 (proj2 Hagree))))))) tt Y
  | |- (if ?c then _ else _) = (if ?c then _ else _) =>
      let C := fresh "C" in destruct c eqn:C; rewrite ?C in L
  | |- ?a = ?a => reflexivity
  | |- parsePrimary _ _ _ = _ => exact (proj1 Hagree _ L)
  | |- parseArgs _ _ _ _ = _ => exact (proj1 (proj2 Hagree) _ _ L)
  | |- loopPower _ _ _ _ = _ => exact (proj1 (proj2 (proj2 (proj2 Hagree))) _ _ L)
  | |- loopMulDiv _ _ _ _ = _ =>
      exact (proj1 (proj2 (proj2 (proj2 (proj2 (proj2 Hagree))))) _ _ L)
  | |- loopAddSub _ _ _ _ = _ =>
      exact (proj2 (proj2 (proj2 (proj2 (proj2 (proj2 (proj2 Hagree)))))) _ _ L)
  end.

Lemma bounds_agree_step : bounds_agree (S fuel0) (S fuel1).
Proof.
  unfold bounds_agree.
  repeat split; intros until pos; intros L;
    cbn [parsePrimary parseArgs parsePower loopPower parseMulDiv loopMulDiv
         parseAddSub loopAddSub] in L |- *;
    repeat in_step L.
Qed.
End FuelSteps.

Lemma bounds_agree_zero tokens b : bounds_agree tokens 0 b.
Proof. unfold bounds_agree. repeat split; intros until pos; intros L; now destruct L. Qed.

Lemma bounds_agree_plus tokens k : forall a, bounds_agree tokens a (a + k).
Proof.
  induction a as [|a IH]; [apply bounds_agree_zero|].
  exact (bounds_agree_step tokens a (a + k) IH).
Qed.

(** More room than [4 * tokens.length + 4] changes nothing. *)
Lemma descent_room tokens k :
  parseAddSub tokens (4 * length tokens + 4 + k) 0
  = parseAddSub tokens (4 * length tokens + 4) 0.
Proof.
  apply (proj1 (proj2 (proj2 (proj2 (proj2 (proj2 (proj2
           (bounds_agree_plus tokens k (4 * length tokens + 4)))))))) 0%nat).
  apply (proj1 (proj2 (proj2 (proj2 (proj2 (proj2 (proj2
           (parser_fuel tokens (4 * length tokens + 4)))))))) 0%nat).
  lia.
Qed.

(** ** A missing operand and an identifier in its place *)

(** The results of a function of the descent on two token sequences are
    alike: the same failure, or the same position with trees that [R]
    relates. *)
Definition alike {A : Type} (R : A -> A -> Prop) (r r' : result (A * nat)) : Prop :=
  match r, r' with
  | Ok (a, p), Ok (a', p') => R a a' /\ p = p'
  | Err e, Err e' => e = e'
  | _, _ => False
  end.

Lemma alike_bind {A B : Type} (RA : A -> A -> Prop) (RB : B -> B -> Prop)
    (r r' : result (A * nat)) (k k' : A * nat -> result (B * nat)) :
  alike RA r r' ->
  (forall a a' p, RA a a' -> alike RB (k (a, p)) (k' (a', p))) ->
  alike RB (bind r k) (bind r' k').
Proof.
  destruct r as [[a p]|e], r' as [[a' p']|e']; cbn [alike bind]; try tauto.
  intros [Ha <-] Hk. now apply Hk.
Qed.

Section MissingOperand.
Variable tokens : list string.

(** An identifier other than i. *)
Variable x : string.
Hypothesis x_identifier : is_identifier_text (Some x) = true.
Hypothesis x_not_i : String.eqb x "i" = false.
Hypothesis x_fresh : existsb (String.eqb x) tokens = false.

(** [forget a] is [a] with [undefined] for the name of the variable [x]. *)
Fixpoint forget (a : ast) : ast :=
  match a with
  | Num _ => a
  | Var (Some n) => if String.eqb n x then Var None else a
  | Var None => a
  | Call name args => Call name (map forget args)
  | Neg arg => Neg (forget arg)
  | Bin op lhs rhs => Bin op (forget lhs) (forget rhs)
  end.

Definition forgotten (a a' : ast) : Prop := a' = forget a.
Definition all_forgotten (l l' : list ast) : Prop := l' = map forget l.

(** A token of the sequence is not [x]. *)
Lemma forget_token pos : forget (Var (peek tokens pos)) = Var (peek tokens pos).
Proof.
  destruct (peek tokens pos) as [n|] eqn:Hn; [|reflexivity].
  cbn [forget]. apply peek_in in Hn.
  replace (String.eqb n x) with false; [reflexivity|].
  symmetry. apply String.eqb_neq. intros ->.
  assert (H : existsb (String.eqb x) tokens = true)
    by (apply existsb_exists; exists x; split; [exact Hn|apply String.eqb_refl]).
  congruence.
Qed.

Lemma peek_app_other pos :
  pos <> length tokens -> peek (tokens ++ [x]) pos = peek tokens pos.
Proof.
  intros H. unfold peek. destruct (Nat.lt_ge_cases pos (length tokens)) as [Hlt|Hge].
  - now apply nth_error_app1.
  - rewrite (proj2 (nth_error_None tokens pos)) by lia.
    apply nth_error_None. rewrite length_app. cbn [length]. lia.
Qed.

Lemma peek_app_last : peek (tokens ++ [x]) (length tokens) = Some x.
Proof. unfold peek. rewrite nth_error_app2, Nat.sub_diag by lia. reflexivity. Qed.

(** The tests of the parser for a given token do not tell the two
    sequences apart. *)
Lemma token_agree pos s :
  is_identifier_text (Some s) = false \/ s = "i" ->
  is_token (peek (tokens ++ [x]) pos) s = is_token (peek tokens pos) s.
Proof.
  intros Hs. destruct (Nat.eq_dec pos (length tokens)) as [->|Hne];
    [|now rewrite peek_app_other].
  rewrite peek_app_last, (peek_exhausted tokens (length tokens)) by lia.
  cbn [is_token]. apply String.eqb_neq. intros ->.
  destruct Hs as [Hs|Hs]; [congruence|].
  subst. discriminate x_not_i.
Qed.

(** The identifier at the end is read as a variable, where the shorter
    sequence gives [undefined]. *)
Lemma parsePrimary_last fuel :
  parsePrimary (tokens ++ [x]) (S fuel) (length tokens)
  = Ok (Var (Some x), S (length tokens)).
Proof.
  cbn [parsePrimary]. rewrite peek_app_last.
  assert (Hp : is_token (Some x) "(" = false).
  { apply String.eqb_neq. intros ->. discriminate x_identifier. }
  assert (Hi : is_token (Some x) "i" = false) by exact x_not_i.
  assert (Hd : starts_with_digit (Some x) || is_decimal_text (Some x) = false).
  { revert x_identifier. unfold is_identifier_text, starts_with_digit, is_decimal_text.
    cbn [ToString]. destruct x as [|c s]; [discriminate|].
    destruct c as [[] [] [] [] [] [] [] []]; try discriminate; reflexivity. }
  rewrite Hp, Hd, Hi, x_identifier. unfold consume. cbn [bind].
  rewrite peek_app_last.
  rewrite (peek_exhausted (tokens ++ [x]) (S (length tokens)))
    by (rewrite length_app; cbn [length]; lia).
  reflexivity.
Qed.

Ltac agree_tokens :=
  rewrite ?token_agree by (first [left; reflexivity|right; reflexivity]).

Ltac alike_step IHp IHa IHw IHlw IHm IHlm IHs IHls :=
  cbn [negb andb orb bind JS.is_empty]; agree_tokens;
  cbn [negb andb orb bind JS.is_empty];
  lazymatch goal with
  | |- alike _ (bind (if ?c then _ else _) _) (bind (if ?c then _ else _) _) =>
      destruct c
  | |- alike _ (bind (parsePrimary _ _ _) _) (bind _ _) =>
      eapply alike_bind; [apply IHp|intros ? ? ? ?; cbv beta iota]
  | |- alike _ (bind (parseArgs _ _ _ _) _) (bind _ _) =>
      eapply alike_bind; [apply IHa; reflexivity|intros ? ? ? ?; cbv beta iota]
  | |- alike _ (bind (parsePower _ _ _) _) (bind _ _) =>
      eapply alike_bind; [apply IHw|intros ? ? ? ?; cbv beta iota]
  | |- alike _ (bind (parseMulDiv _ _ _) _) (bind _ _) =>
      eapply alike_bind; [apply IHm|intros ? ? ? ?; cbv beta iota]
  | |- alike _ (bind (parseAddSub _ _ _) _) (bind _ _) =>
      eapply alike_bind; [apply IHs|intros ? ? ? ?; cbv beta iota]
  | |- alike _ (bind (Complex.fromString ?s) _) (bind _ _) =>
      destruct (Complex.fromString s)
  | |- alike _ (if ?c then _ else _) (if ?c then _ else _) => destruct c
  | |- alike _ (Ok _) (Ok _) =>
      split; [unfold forgotten, all_forgotten in *; subst;
              rewrite ?map_app, ?forget_token; reflexivity|reflexivity]
  | |- alike _ (Err _) (Err _) => reflexivity
  | |- alike _ (parseArgs _ _ _ _) (parseArgs _ _ _ _) =>
      apply IHa; unfold forgotten, all_forgotten in *; subst; rewrite map_app;
      reflexivity
  | |- alike _ (loopPower _ _ _ _) (loopPower _ _ _ _) =>
      apply IHlw; unfold forgotten in *; subst; reflexivity
  | |- alike _ (loopMulDiv _ _ _ _) (loopMulDiv _ _ _ _) =>
      apply IHlm; unfold forgotten in *; subst; reflexivity
  | |- alike _ (loopAddSub _ _ _ _) (loopAddSub _ _ _ _) =>
      apply IHls; unfold forgotten in *; subst; reflexivity
  end.

(** The descent on the tokens followed by [x] and the descent on the
    tokens alone go the same way. *)
Lemma descent_alike fuel :
  (forall pos, alike forgotten (parsePrimary (tokens ++ [x]) fuel pos)
                               (parsePrimary tokens fuel pos)) /\
  (forall args args' pos, all_forgotten args args' ->
     alike all_forgotten (parseArgs (tokens ++ [x]) fuel args pos)
                      (parseArgs tokens fuel args' pos)) /\
  (forall pos, alike forgotten (parsePower (tokens ++ [x]) fuel pos)
                               (parsePower tokens fuel pos)) /\
  (forall lhs lhs' pos, forgotten lhs lhs' ->
     alike forgotten (loopPower (tokens ++ [x]) fuel lhs pos)
                     (loopPower tokens fuel lhs' pos)) /\
  (forall pos, alike forgotten (parseMulDiv (tokens ++ [x]) fuel pos)
                               (parseMulDiv tokens fuel pos)) /\
  (forall node node' pos, forgotten node node' ->
     alike forgotten (loopMulDiv (tokens ++ [x]) fuel node pos)
                     (loopMulDiv tokens fuel node' pos)) /\
  (forall pos, alike forgotten (parseAddSub (tokens ++ [x]) fuel pos)
                               (parseAddSub tokens fuel pos)) /\
  (forall node node' pos, forgotten node node' ->
     alike forgotten (loopAddSub (tokens ++ [x]) fuel node pos)
                     (loopAddSub tokens fuel node' pos)).
Proof.
  induction fuel as [|fuel (IHp & IHa & IHw & IHlw & IHm & IHlm & IHs & IHls)].
  { repeat split; intros; reflexivity. }
  split.
  { (* parsePrimary *)
    intros pos. destruct (Nat.eq_dec pos (length tokens)) as [->|Hne].
    - rewrite parsePrimary_last, parsePrimary_exhausted by lia.
      split; [|reflexivity]. unfold forgotten. cbn [forget].
      now rewrite String.eqb_refl.
    - cbn [parsePrimary]. rewrite (peek_app_other pos Hne). unfold consume.
      rewrite (peek_app_other pos Hne). cbv zeta.
      repeat alike_step IHp IHa IHw IHlw IHm IHlm IHs IHls. }
  repeat split; intros;
    cbn [parseArgs parsePower loopPower parseMulDiv loopMulDiv parseAddSub loopAddSub];
    unfold consume; cbv zeta;
    repeat alike_step IHp IHa IHw IHlw IHm IHlm IHs IHls.
Qed.

(** The same for the whole descent, each sequence with the room
    [parseExpression] gives it. *)
Lemma descent_with_identifier :
  alike forgotten
    (parseAddSub (tokens ++ [x]) (parse_fuel (tokens ++ [x])) 0)
    (parseAddSub tokens (parse_fuel tokens) 0).
Proof.
  unfold parse_fuel.
  replace (4 * length tokens + 8)%nat with (4 * length tokens + 4 + 4)%nat by lia.
  rewrite (descent_room tokens 4), <- (descent_room tokens 8).
  replace (4 * length (tokens ++ [x]) + 8)%nat with (4 * length tokens + 4 + 8)%nat
    by (rewrite length_app; cbn [length]; lia).
  apply descent_alike.
Qed.

(** A sequence that parses with [x] at its end parses without it. *)
Lemma parse_without_identifier a :
  parseExpression (tokens ++ [x]) = Ok a -> parseExpression tokens = Ok (forget a).
Proof.
  unfold parseExpression. pose proof descent_with_identifier as H.
  destruct (parseAddSub (tokens ++ [x]) _ 0) as [[a1 p]|e]; [|discriminate].
  destruct (parseAddSub tokens _ 0) as [[a2 p']|e']; [|destruct H].
  destruct H as [-> <-]. cbn [bind].
  destruct (p <? length (tokens ++ [x]))%nat eqn:Hp; [discriminate|].
  intros [= <-]. apply Nat.ltb_ge in Hp. rewrite length_app in Hp. cbn [length] in Hp.
  replace (p <? length tokens)%nat with false by (symmetry; apply Nat.ltb_ge; lia).
  reflexivity.
Qed.

(** A sequence whose descent reads past the end parses with [x] there. *)
Lemma parse_with_identifier a' pos :
  parseAddSub tokens (parse_fuel tokens) 0 = Ok (a', pos) ->
  (length tokens < pos)%nat ->
  exists a, parseExpression (tokens ++ [x]) = Ok a /\ a' = forget a.
Proof.
  intros Hd Hpos. unfold parseExpression. pose proof descent_with_identifier as H.
  rewrite Hd in H.
  destruct (parseAddSub (tokens ++ [x]) _ 0) as [[a1 p]|e]; [|destruct H].
  destruct H as [-> ->]. cbn [bind]. exists a1. split; [|reflexivity].
  replace (pos <? length (tokens ++ [x]))%nat with false; [reflexivity|].
  symmetry. apply Nat.ltb_ge. rewrite length_app. cbn [length]. lia.
Qed.

(** A failure of the descent with [x] at the end is the failure without. *)
Lemma failure_without_identifier e :
  parseExpression (tokens ++ [x]) = Err e ->
  (forall s, e <> TrailingTokens s) ->
  parseExpression tokens = Err e.
Proof.
  unfold parseExpression. pose proof descent_with_identifier as H.
  destruct (parseAddSub (tokens ++ [x]) _ 0) as [[a1 p]|e1].
  - cbn [bind]. destruct (p <? length (tokens ++ [x]))%nat; [|discriminate].
    intros [= <-] Hno. now destruct (Hno _ eq_refl).
  - destruct (parseAddSub tokens _ 0) as [[a2 p']|e']; [destruct H|].
    cbn [alike] in H. subst e'. cbn [bind]. now intros [= <-].
Qed.
End MissingOperand.

(** A parenthesis whose contents run to the end of the tokens, or past
    it, fails as unclosed; so does the argument list of a call. *)
Lemma open_parenthesis_fails tokens fuel pos a pos' :
  is_token (peek tokens pos) "(" = true ->
  parseAddSub tokens fuel (S pos) = Ok (a, pos') ->
  (length tokens <= pos')%nat ->
  parsePrimary tokens (S fuel) pos = Err UnclosedParenthesis.
Proof.
  intros Hopen Hin Hend. cbn [parsePrimary]. rewrite Hopen. unfold consume.
  rewrite Hopen. cbn [negb andb JS.is_empty bind]. rewrite Hin. cbn [bind].
  rewrite (peek_exhausted tokens pos' Hend). reflexivity.
Qed.

Lemma open_call_fails tokens fuel pos f args pos' :
  peek tokens pos = Some f ->
  is_identifier_text (Some f) = true -> String.eqb f "i" = false ->
  is_token (peek tokens (S pos)) "(" = true ->
  is_token (peek tokens (S (S pos))) ")" = false ->
  parseArgs tokens fuel [] (S (S pos)) = Ok (args, pos') ->
  (length tokens <= pos')%nat ->
  parsePrimary tokens (S fuel) pos = Err UnclosedCall.
Proof.
  intros Hf Hid Hi Hopen Hclose Hargs Hend. cbn [parsePrimary]. rewrite Hf.
  assert (Hp : is_token (Some f) "(" = false).
  { apply String.eqb_neq. intros ->. discriminate Hid. }
  assert (Hd : starts_with_digit (Some f) || is_decimal_text (Some f) = false).
  { revert Hid. unfold is_identifier_text, starts_with_digit, is_decimal_text.
    cbn [ToString]. destruct f as [|c s]; [discriminate|].
    destruct c as [[] [] [] [] [] [] [] []]; try discriminate; reflexivity. }
  rewrite Hp, Hd. cbn [is_token]. rewrite Hi, Hid. unfold consume. cbn [bind].
  rewrite Hopen. cbn [negb andb JS.is_empty bind]. rewrite Hclose. cbn [negb].
  rewrite Hargs. cbn [bind]. rewrite (peek_exhausted tokens pos' Hend). reflexivity.
Qed.

(** ** Parentheses that are not closed *)

Lemma is_token_true t s : is_token t s = true -> t = Some s.
Proof.
  destruct t as [u|]; [|discriminate]. cbn [is_token].
  intros H. apply String.eqb_eq in H. now subst.
Qed.

Lemma firstn_plus {A : Type} (a b : nat) : forall l : list A,
  firstn (a + b) l = firstn a l ++ firstn b (skipn a l).
Proof.
  induction a as [|a IH]; intros l; [reflexivity|].
  destruct l as [|y l]; cbn [Nat.add firstn skipn app].
  - now rewrite firstn_nil.
  - now rewrite IH.
Qed.

Lemma firstn_one_skipn {A : Type} (n : nat) : forall l : list A,
  firstn 1 (skipn n l) = match nth_error l n with Some y => [y] | None => [] end.
Proof.
  induction n as [|n IH]; intros [|y l]; try reflexivity. cbn [skipn nth_error]. apply IH.
Qed.

Section Parentheses.
Variable tokens : list string.

(** Every open parenthesis among the tokens from [lo] up to [hi] has a
    closing parenthesis after it, before [hi]. *)
Definition closed_between (lo hi : nat) : Prop :=
  forall i, (lo <= i < hi)%nat -> peek tokens i = Some "(" ->
  exists j, (i < j < hi)%nat /\ peek tokens j = Some ")".

Lemma closed_join lo mid hi :
  closed_between lo mid -> closed_between mid hi ->
  (lo <= mid)%nat -> (mid <= hi)%nat -> closed_between lo hi.
Proof.
  intros Hl Hh H1 H2 i Hi Hopen.
  destruct (Nat.lt_ge_cases i mid) as [Hlt|Hge].
  - destruct (Hl i ltac:(lia) Hopen) as (j & Hj & Hc). exists j. split; [lia|exact Hc].
  - destruct (Hh i ltac:(lia) Hopen) as (j & Hj & Hc). exists j. split; [lia|exact Hc].
Qed.

Lemma closed_token lo s :
  is_token (peek tokens lo) s = true -> s <> "(" -> closed_between lo (S lo).
Proof.
  intros Hs Hne i Hi Hopen. replace i with lo in Hopen by lia.
  apply is_token_true in Hs. congruence.
Qed.

Lemma closed_other lo :
  is_token (peek tokens lo) "(" = false -> closed_between lo (S lo).
Proof.
  intros Hs i Hi Hopen. replace i with lo in Hopen by lia.
  rewrite Hopen in Hs. discriminate Hs.
Qed.

Lemma closed_pair lo p :
  closed_between (S lo) p -> is_token (peek tokens p) ")" = true ->
  (lo < p)%nat -> closed_between lo (S p).
Proof.
  intros Hin Hclose Hlt i Hi Hopen. apply is_token_true in Hclose.
  destruct (Nat.eq_dec i p) as [->|Hne]; [congruence|].
  destruct (Nat.eq_dec i lo) as [->|Hne'].
  - exists p. split; [lia|exact Hclose].
  - destruct (Hin i ltac:(lia) Hopen) as (j & Hj & Hc). exists j. split; [lia|exact Hc].
Qed.

Lemma closed_none lo : closed_between lo lo.
Proof. intros i Hi. lia. Qed.

(** One token that is not an open parenthesis. *)
Ltac closed_single :=
  first [apply closed_other; assumption
        |eapply closed_token; [eassumption|discriminate]].

(** The tokens from [lo] to [hi], cut where the calls of the descent
    began and ended. *)
Ltac closed_range :=
  first
  [ assumption
  | apply closed_none
  | closed_single
  | apply closed_pair; [closed_range|assumption|lia]
  | match goal with
    | Hc : closed_between ?lo ?mid |- closed_between ?lo ?hi =>
        apply (closed_join lo mid hi Hc); [closed_range|lia|lia]
    end
  | match goal with
    | |- closed_between ?lo ?hi =>
        assert (S lo <= hi)%nat by lia;
        apply (closed_join lo (S lo) hi); [closed_single|closed_range|lia|lia]
    end ].

(** What a call of the descent that succeeded says: the property holds
    of the tokens it went over, and it went forward. *)
Ltac call_facts fuel IHp IHa IHw IHlw IHm IHlm IHs IHls :=
  pose proof (parser_progress tokens fuel) as (Pp & Pa & Pw & Plw & Pm & Plm & Ps & Pls);
  repeat match goal with
  | E : parsePrimary _ _ _ = Ok _ |- _ =>
      pose proof (IHp _ _ _ E); apply Pp in E
  | E : parseArgs _ _ _ _ = Ok _ |- _ =>
      pose proof (IHa _ _ _ _ E); apply Pa in E
  | E : parsePower _ _ _ = Ok _ |- _ =>
      pose proof (IHw _ _ _ E); apply Pw in E
  | E : loopPower _ _ _ _ = Ok _ |- _ =>
      pose proof (IHlw _ _ _ _ E); apply Plw in E
  | E : parseMulDiv _ _ _ = Ok _ |- _ =>
      pose proof (IHm _ _ _ E); apply Pm in E
  | E : loopMulDiv _ _ _ _ = Ok _ |- _ =>
      pose proof (IHlm _ _ _ _ E); apply Plm in E
  | E : parseAddSub _ _ _ = Ok _ |- _ =>
      pose proof (IHs _ _ _ E); apply Ps in E
  | E : loopAddSub _ _ _ _ = Ok _ |- _ =>
      pose proof (IHls _ _ _ _ E); apply Pls in E
  end.

Ltac test_facts :=
  repeat match goal with
  | H : consume _ _ _ = Ok _ |- _ => apply consume_ok in H; destruct H as [-> ->]
  | H : negb _ = false |- _ => apply negb_false_iff in H
  | H : negb _ = true |- _ => apply negb_true_iff in H
  | H : _ || _ = true |- _ => apply orb_true_iff in H; destruct H as [H|H]
  end.

Lemma descent_closes fuel :
  (forall pos a pos', parsePrimary tokens fuel pos = Ok (a, pos') ->
     closed_between pos pos') /\
  (forall args pos a pos', parseArgs tokens fuel args pos = Ok (a, pos') ->
     closed_between pos pos') /\
  (forall pos a pos', parsePower tokens fuel pos = Ok (a, pos') ->
     closed_between pos pos') /\
  (forall lhs pos a pos', loopPower tokens fuel lhs pos = Ok (a, pos') ->
     closed_between pos pos') /\
  (forall pos a pos', parseMulDiv tokens fuel pos = Ok (a, pos') ->
     closed_between pos pos') /\
  (forall node pos a pos', loopMulDiv tokens fuel node pos = Ok (a, pos') ->
     closed_between pos pos') /\
  (forall pos a pos', parseAddSub tokens fuel pos = Ok (a, pos') ->
     closed_between pos pos') /\
  (forall node pos a pos', loopAddSub tokens fuel node pos = Ok (a, pos') ->
     closed_between pos pos').
Proof.
  induction fuel as [|fuel (IHp & IHa & IHw & IHlw & IHm & IHlm & IHs & IHls)].
  { repeat split; intros; discriminate. }
  repeat split; intros until pos'; intros H;
    cbn [parsePrimary parseArgs parsePower loopPower parseMulDiv loopMulDiv
         parseAddSub loopAddSub] in H;
    invert_bodies; test_facts;
    call_facts fuel IHp IHa IHw IHlw IHm IHlm IHs IHls;
    closed_range.
Qed.

(** In a sequence that parses, every open parenthesis has a closing
    parenthesis after it. *)
Lemma parsed_parentheses_closed a i :
  parseExpression tokens = Ok a -> peek tokens i = Some "(" ->
  exists j, (i < j)%nat /\ peek tokens j = Some ")".
Proof.
  unfold parseExpression. intros H Hopen. invert_bodies.
  apply Nat.ltb_ge in C.
  assert (Hi : (i < length tokens)%nat)
    by (apply nth_error_Some; unfold peek in Hopen; congruence).
  destruct (proj1 (proj2 (proj2 (proj2 (proj2 (proj2 (proj2
              (descent_closes (parse_fuel tokens)))))))) _ _ _ E i ltac:(lia) Hopen)
    as (j & Hj & Hc).
  exists j. split; [lia|exact Hc].
Qed.

(** The tokens at the positions from [lo] up to [hi]. *)
Definition slice (lo hi : nat) : list string := firstn (hi - lo) (skipn lo tokens).

(** As many open as closing parentheses among them. *)
Definition balanced (lo hi : nat) : Prop :=
  count_occ string_dec (slice lo hi) "(" = count_occ string_dec (slice lo hi) ")".

Lemma slice_join lo mid hi :
  (lo <= mid)%nat -> (mid <= hi)%nat -> slice lo hi = slice lo mid ++ slice mid hi.
Proof.
  intros H1 H2. unfold slice.
  replace (hi - lo)%nat with ((mid - lo) + (hi - mid))%nat by lia.
  rewrite firstn_plus, skipn_skipn. do 3 f_equal. lia.
Qed.

Lemma slice_single lo :
  slice lo (S lo) = match peek tokens lo with Some t => [t] | None => [] end.
Proof.
  unfold slice, peek. replace (S lo - lo)%nat with 1%nat by lia.
  apply firstn_one_skipn.
Qed.

Lemma balanced_none lo : balanced lo lo.
Proof. unfold balanced, slice. now rewrite Nat.sub_diag. Qed.

Lemma balanced_join lo mid hi :
  balanced lo mid -> balanced mid hi ->
  (lo <= mid)%nat -> (mid <= hi)%nat -> balanced lo hi.
Proof.
  unfold balanced. intros Hl Hh H1 H2.
  rewrite (slice_join lo mid hi H1 H2), !count_occ_app. lia.
Qed.

Lemma balanced_plain lo :
  peek tokens lo <> Some "(" -> peek tokens lo <> Some ")" -> balanced lo (S lo).
Proof.
  unfold balanced. rewrite slice_single. intros Ho Hc.
  destruct (peek tokens lo) as [t|]; [|reflexivity]. cbn [count_occ].
  destruct (string_dec t "(") as [->|_]; [congruence|].
  destruct (string_dec t ")") as [->|_]; [congruence|reflexivity].
Qed.

Lemma balanced_token lo s :
  is_token (peek tokens lo) s = true -> s <> "(" -> s <> ")" -> balanced lo (S lo).
Proof.
  intros Hs%is_token_true Ho Hc. apply balanced_plain; congruence.
Qed.

Lemma balanced_digit lo : starts_with_digit (peek tokens lo) = true -> balanced lo (S lo).
Proof. intros H. apply balanced_plain; intros E; rewrite E in H; discriminate H. Qed.

Lemma balanced_decimal lo : is_decimal_text (peek tokens lo) = true -> balanced lo (S lo).
Proof. intros H. apply balanced_plain; intros E; rewrite E in H; discriminate H. Qed.

Lemma balanced_identifier lo :
  is_identifier_text (peek tokens lo) = true -> balanced lo (S lo).
Proof. intros H. apply balanced_plain; intros E; rewrite E in H; discriminate H. Qed.

Lemma balanced_pair lo p :
  is_token (peek tokens lo) "(" = true -> balanced (S lo) p ->
  is_token (peek tokens p) ")" = true -> (lo < p)%nat -> balanced lo (S p).
Proof.
  intros Ho%is_token_true Hin Hc%is_token_true Hlt. unfold balanced in *.
  rewrite (slice_join lo (S lo) (S p)), (slice_join (S lo) p (S p)) by lia.
  rewrite !slice_single, Ho, Hc, !count_occ_app, Hin. cbn [count_occ].
  destruct (string_dec "(" "("), (string_dec "(" ")"), (string_dec ")" "("),
    (string_dec ")" ")"); try congruence; lia.
Qed.

(** One token that is not a parenthesis. *)
Ltac balanced_single :=
  first [eapply balanced_token; [eassumption|discriminate|discriminate]
        |apply balanced_digit; assumption
        |apply balanced_decimal; assumption
        |apply balanced_identifier; assumption].

(** The tokens from [lo] to [hi], cut where the calls of the descent
    began and ended. *)
Ltac balanced_range :=
  first
  [ assumption
  | apply balanced_none
  | balanced_single
  | apply balanced_pair; [assumption|balanced_range|assumption|lia]
  | match goal with
    | Hc : balanced ?lo ?mid |- balanced ?lo ?hi =>
        apply (balanced_join lo mid hi Hc); [balanced_range|lia|lia]
    end
  | match goal with
    | |- balanced ?lo ?hi =>
        assert (S lo <= hi)%nat by lia;
        apply (balanced_join lo (S lo) hi); [balanced_single|balanced_range|lia|lia]
    end ].

Lemma descent_balanced fuel :
  (forall pos a pos', parsePrimary tokens fuel pos = Ok (a, pos') -> balanced pos pos') /\
  (forall args pos a pos', parseArgs tokens fuel args pos = Ok (a, pos') ->
     balanced pos pos') /\
  (forall pos a pos', parsePower tokens fuel pos = Ok (a, pos') -> balanced pos pos') /\
  (forall lhs pos a pos', loopPower tokens fuel lhs pos = Ok (a, pos') ->
     balanced pos pos') /\
  (forall pos a pos', parseMulDiv tokens fuel pos = Ok (a, pos') -> balanced pos pos') /\
  (forall node pos a pos', loopMulDiv tokens fuel node pos = Ok (a, pos') ->
     balanced pos pos') /\
  (forall pos a pos', parseAddSub tokens fuel pos = Ok (a, pos') -> balanced pos pos') /\
  (forall node pos a pos', loopAddSub tokens fuel node pos = Ok (a, pos') ->
     balanced pos pos').
Proof.
  induction fuel as [|fuel (IHp & IHa & IHw & IHlw & IHm & IHlm & IHs & IHls)].
  { repeat split; intros; discriminate. }
  repeat split; intros until pos'; intros H;
    cbn [parsePrimary parseArgs parsePower loopPower parseMulDiv loopMulDiv
         parseAddSub loopAddSub] in H;
    invert_bodies; test_facts;
    call_facts fuel IHp IHa IHw IHlw IHm IHlm IHs IHls;
    balanced_range.
Qed.

(** A sequence that parses has as many open as closing parentheses. *)
Lemma parsed_parentheses_balanced a :
  parseExpression tokens = Ok a ->
  count_occ string_dec tokens "(" = count_occ string_dec tokens ")".
Proof.
  unfold parseExpression. intros H. invert_bodies. apply Nat.ltb_ge in C.
  pose proof (proj1 (proj2 (proj2 (proj2 (proj2 (proj2 (proj2
                (descent_balanced (parse_fuel tokens)))))))) _ _ _ E) as Hb.
  unfold balanced, slice in Hb. cbn [skipn] in Hb.
  rewrite Nat.sub_0_r, firstn_all2 in Hb by exact C. exact Hb.
Qed.
End Parentheses.

(** C10, as the code has it. Where a primary is expected and no token is
    left, [parsePrimary] does not fail: it returns a variable named
    [undefined]. From there the parser goes on as if an identifier stood
    at the end of the tokens. For every token sequence and every
    identifier [x] that is not i and not among the tokens: if the tokens
    followed by [x] parse, the tokens parse, to the same tree with
    [undefined] for [x]; the tokens followed by [x] parse whenever the
    descent on the tokens reads past their end; and a failure of the
    descent on the tokens followed by [x] is the failure of the tokens.
    A parenthesis or an argument list whose contents run to the end of
    the tokens or past it fails as unclosed, and a sequence parses only
    if it has as many open as closing parentheses and a closing
    parenthesis after every open one. So the empty sequence and the text
    "1+" parse, the texts of an open parenthesis and of f with an open
    parenthesis fail, and an invalid primary is only ever reported for a
    token that is there. *)
Theorem missing_operand :
  (forall tokens fuel pos,
      (length tokens <= pos)%nat ->
      parsePrimary tokens (S fuel) pos = Ok (Var None, S pos)) /\
  (forall tokens x,
      is_identifier_text (Some x) = true -> String.eqb x "i" = false ->
      existsb (String.eqb x) tokens = false ->
      (forall a, parseExpression (tokens ++ [x]) = Ok a ->
                 parseExpression tokens = Ok (forget x a)) /\
      (forall a' pos,
          parseAddSub tokens (parse_fuel tokens) 0 = Ok (a', pos) ->
          (length tokens < pos)%nat ->
          exists a, parseExpression (tokens ++ [x]) = Ok a /\ a' = forget x a) /\
      (forall e, parseExpression (tokens ++ [x]) = Err e ->
                 (forall s, e <> TrailingTokens s) ->
                 parseExpression tokens = Err e)) /\
  (forall tokens fuel pos a pos',
      is_token (peek tokens pos) "(" = true ->
      parseAddSub tokens fuel (S pos) = Ok (a, pos') ->
      (length tokens <= pos')%nat ->
      parsePrimary tokens (S fuel) pos = Err UnclosedParenthesis) /\
  (forall tokens fuel pos f args pos',
      peek tokens pos = Some f ->
      is_identifier_text (Some f) = true -> String.eqb f "i" = false ->
      is_token (peek tokens (S pos)) "(" = true ->
      is_token (peek tokens (S (S pos))) ")" = false ->
      parseArgs tokens fuel [] (S (S pos)) = Ok (args, pos') ->
      (length tokens <= pos')%nat ->
      parsePrimary tokens (S fuel) pos = Err UnclosedCall) /\
  (forall tokens a,
      parseExpression tokens = Ok a ->
      count_occ string_dec tokens "(" = count_occ string_dec tokens ")" /\
      forall i, peek tokens i = Some "(" ->
                exists j, (i < j)%nat /\ peek tokens j = Some ")") /\
  parseExpression [] = Ok (Var None) /\
  parse "1+" = Ok (Bin Add (Num (real 1)) (Var None)) /\
  (forall tokens t, parseExpression tokens = Err (InvalidPrimary t) -> In t tokens) /\
  parse "(" = Err UnclosedParenthesis /\
  parse "f(" = Err UnclosedCall.
Proof.
  split; [|split; [|split; [|split; [|split; [|split; [|split; [|split; [|split]]]]]]]].
  - exact parsePrimary_exhausted.
  - intros tokens x Hid Hi Hfresh. split; [|split].
    + intros a. now apply parse_without_identifier.
    + intros a' pos. now apply parse_with_identifier.
    + intros e. now apply failure_without_identifier.
  - exact open_parenthesis_fails.
  - exact open_call_fails.
  - intros tokens a Hparse. split.
    + exact (parsed_parentheses_balanced tokens a Hparse).
    + intros i. exact (parsed_parentheses_closed tokens a i Hparse).
  - vm_compute. reflexivity.
  - vm_compute. reflexivity.
  - exact parseExpression_invalid_primary.
  - vm_compute. reflexivity.
  - vm_compute. reflexivity.
Qed.

Lemma missing_operand_witness :
  parsePrimary ["1"; "+"] 1 2 = Ok (Var None, 3%nat) /\
  parseExpression ["2"; "*"; "("; "a"; ")"; "-"]
  = Ok (Bin Sub (Bin Mul (Num (real 2)) (Var (Some "a"))) (Var None)) /\
  parseExpression ["2"; "*"; "("; "a"; "-"] = Err UnclosedParenthesis /\
  parsePrimary ["("; "a"; "-"] 9 0 = Err UnclosedParenthesis /\
  parsePrimary ["f"; "("; "a"; ","] 9 0 = Err UnclosedCall /\
  (exists a, parseExpression ["1"; "+"; "y"] = Ok a
             /\ Bin Add (Num (real 1)) (Var None) = forget "y" a) /\
  In ")" ["1"; "+"; ")"] /\
  (exists j, (1 < j)%nat /\ peek ["f"; "("; "a"; ")"; "+"] j = Some ")").
Proof.
  split; [|split; [|split; [|split; [|split; [|split; [|split]]]]]].
  - apply (proj1 missing_operand ["1"; "+"] 0%nat 2%nat). cbn [length]. lia.
  - apply (proj1 (proj1 (proj2 missing_operand) ["2"; "*"; "("; "a"; ")"; "-"] "b"
                   eq_refl eq_refl eq_refl)
             (Bin Sub (Bin Mul (Num (real 2)) (Var (Some "a"))) (Var (Some "b")))).
    vm_compute. reflexivity.
  - apply (proj2 (proj2 (proj1 (proj2 missing_operand) ["2"; "*"; "("; "a"; "-"] "b"
                          eq_refl eq_refl eq_refl))).
    + vm_compute. reflexivity.
    + intros s. discriminate.
  - apply (proj1 (proj2 (proj2 missing_operand)) ["("; "a"; "-"] 8%nat 0%nat
             (Bin Sub (Var (Some "a")) (Var None)) 4%nat).
    + reflexivity.
    + vm_compute. reflexivity.
    + cbn [length]. lia.
  - apply (proj1 (proj2 (proj2 (proj2 missing_operand))) ["f"; "("; "a"; ","] 8%nat 0%nat
             "f" [Var (Some "a"); Var None] 5%nat).
    + reflexivity.
    + reflexivity.
    + reflexivity.
    + reflexivity.
    + reflexivity.
    + vm_compute. reflexivity.
    + cbn [length]. lia.
  - apply (proj1 (proj2 (proj1 (proj2 missing_operand) ["1"; "+"] "y"
                          eq_refl eq_refl eq_refl))
             (Bin Add (Num (real 1)) (Var None)) 3%nat).
    + vm_compute. reflexivity.
    + cbn [length]. lia.
  - apply (proj1 (proj2 (proj2 (proj2 (proj2 (proj2 (proj2 (proj2 missing_operand)))))))
             ["1"; "+"; ")"] ")").
    vm_compute. reflexivity.
  - apply (proj2 (proj1 (proj2 (proj2 (proj2 (proj2 missing_operand))))
                    ["f"; "("; "a"; ")"; "+"]
                    (Bin Add (Call "f" [Var (Some "a")]) (Var None)) eq_refl) 1%nat).
    reflexivity.
Defined.

(** The one token of the sequence is an open parenthesis: the operand
    expected after it is missing and is read as a variable, and
    [parseExpression] fails. *)
Lemma missing_operand_in_parenthesis :
  parsePrimary ["("] 1 1 = Ok (Var None, 2%nat) /\
  parseExpression ["("] = Err UnclosedParenthesis.
Proof. split; vm_compute; reflexivity. Qed.

(** ** Comparisons and differences of binary64 numbers *)

Lemma SFeqb_finite_refl s m e :
  SFeqb (S754_finite s m e) (S754_finite s m e) = true.
Proof.
  unfold SFeqb, SFcompare.
  destruct s; rewrite Z.compare_refl, Pos.compare_cont_refl; reflexivity.
Qed.

(** "Less than" is the negation of "greater or equal" on numbers, and
    false as soon as one side is [NaN]. *)
Lemma SFltb_SFleb a b :
  SFltb a b = negb (SFleb b a) && SFeqb a a && SFeqb b b.
Proof.
  destruct a as [sa|sa| |sa ma ea], b as [sb|sb| |sb mb eb];
    rewrite ?SFeqb_finite_refl;
    try reflexivity; try (destruct sa; reflexivity); try (destruct sb; reflexivity);
    try (destruct sa, sb; reflexivity).
  unfold SFltb, SFleb. cbn [SFcompare].
  pose proof (Pos.compare_cont_antisym ma mb Eq) as Hm. cbn [CompOpp] in Hm.
  rewrite (Z.compare_antisym ea eb), <- Hm.
  destruct sa, sb; try reflexivity;
    destruct (ea ?= eb); cbn [CompOpp]; try reflexivity;
    destruct (Pos.compare_cont Eq ma mb); reflexivity.
Qed.

Lemma ltb_leb (a b : float) :
  PrimFloat.ltb a b = negb (PrimFloat.leb b a) && negb (JS.isNaN a) && negb (JS.isNaN b).
Proof.
  unfold JS.isNaN, PrimFloat.is_nan. rewrite !negb_involutive.
  rewrite FloatAxioms.ltb_spec, FloatAxioms.leb_spec, !FloatAxioms.eqb_spec.
  apply SFltb_SFleb.
Qed.

Lemma isNaN_abs (d : float) : JS.isNaN (Math.abs d) = JS.isNaN d.
Proof.
  unfold JS.isNaN, PrimFloat.is_nan, Math.abs.
  rewrite !FloatAxioms.eqb_spec, FloatAxioms.abs_spec.
  destruct (Prim2SF d) as [s|s| |s m e]; try reflexivity.
  - destruct s; reflexivity.
  - cbn [SFabs]. unfold SFeqb. cbn [SFcompare].
    rewrite !Z.compare_refl, !Pos.compare_cont_refl. destruct s; reflexivity.
Qed.

(** Rounding never yields [NaN]. *)
Lemma shr_1_nonneg mrs : 0 <= shr_m mrs -> 0 <= shr_m (shr_1 mrs).
Proof.
  destruct mrs as [m r s]. cbn [shr_m shr_1].
  destruct m as [|p|p]; [|destruct p|]; cbn [shr_m]; lia.
Qed.

Lemma iter_shr_nonneg p : forall mrs,
  0 <= shr_m mrs -> 0 <= shr_m (iter_pos shr_1 p mrs).
Proof.
  induction p as [p IH|p IH|]; intros mrs H; cbn [iter_pos].
  - apply IH, IH, shr_1_nonneg, H.
  - apply IH, IH, H.
  - apply shr_1_nonneg, H.
Qed.

Lemma shr_fexp_nonneg m e l :
  0 <= m -> 0 <= shr_m (fst (shr_fexp prec emax m e l)).
Proof.
  intros H. unfold shr_fexp, shr.
  assert (H0 : 0 <= shr_m (shr_record_of_loc m l))
    by (destruct l as [|[]]; exact H).
  destruct (_ - e); cbn [fst]; [exact H0| |exact H0].
  apply iter_shr_nonneg, H0.
Qed.

Lemma round_nearest_even_nonneg m l : 0 <= m -> 0 <= round_nearest_even m l.
Proof.
  intros H. destruct l as [|[]]; cbn [round_nearest_even]; try lia.
  destruct (Z.even m); lia.
Qed.

Lemma binary_round_aux_number s m e l :
  0 <= m -> binary_round_aux prec emax s m e l <> S754_nan.
Proof.
  intros H. unfold binary_round_aux.
  pose proof (shr_fexp_nonneg m e l H) as H1.
  destruct (shr_fexp prec emax m e l) as [mrs' e']. cbn [fst] in H1.
  pose proof (shr_fexp_nonneg _ e' loc_Exact
                (round_nearest_even_nonneg _ (loc_of_shr_record mrs') H1)) as H2.
  destruct (shr_fexp prec emax _ e' loc_Exact) as [mrs'' e'']. cbn [fst] in H2.
  destruct (shr_m mrs''); [discriminate| |lia].
  destruct (e'' <=? emax - prec); discriminate.
Qed.

Lemma binary_normalize_number m e z : binary_normalize prec emax m e z <> S754_nan.
Proof.
  destruct m as [|p|p]; cbn [binary_normalize]; [discriminate| |];
    unfold binary_round; destruct (shl_align _ _ _) as [mz ez];
    apply binary_round_aux_number; lia.
Qed.

Lemma difference_nan (x y : float) : JS.isNaN (x - y) = no_distance x y.
Proof.
  unfold no_distance, JS.isNaN, PrimFloat.is_nan, PrimFloat.is_infinity.
  rewrite !FloatAxioms.eqb_spec, FloatAxioms.abs_spec, FloatAxioms.sub_spec.
  change (Prim2SF infinity) with (S754_infinity false).
  change SF64sub with (SFsub prec emax).
  destruct (Prim2SF x) as [sx|sx| |sx mx ex], (Prim2SF y) as [sy|sy| |sy my ey];
    cbn [SFsub SFabs]; rewrite ?SFeqb_finite_refl;
    try reflexivity; try (destruct sx; reflexivity); try (destruct sy; reflexivity);
    try (destruct sx, sy; reflexivity).
  pose proof (binary_normalize_number
                (cond_Zopp sx (Z.pos (fst (shl_align mx ex (Z.min ex ey))))
                 - cond_Zopp sy (Z.pos (fst (shl_align my ey (Z.min ex ey)))))
                (Z.min ex ey) false) as Hn.
  destruct (binary_normalize _ _ _ _) as [s|s| |s m e]; try reflexivity.
  - destruct s; reflexivity.
  - now destruct Hn.
  - rewrite SFeqb_finite_refl. reflexivity.
Qed.

(** The test of [approxEquals] in terms of distances: two values pass it
    when they neither differ beyond the tolerance nor are incomparable. *)
Lemma approxEquals_distance v1 v2 :
  Complex.approxEquals v1 v2 equivalence_eps
  = negb (differ_beyond equivalence_eps v1 v2 || incomparable v1 v2).
Proof.
  unfold Complex.approxEquals, differ_beyond, incomparable.
  rewrite !ltb_leb, !isNaN_abs, !difference_nan.
  replace (JS.isNaN equivalence_eps) with false by (vm_compute; reflexivity).
  destruct (PrimFloat.leb _ (Math.abs (Complex.re v1 - Complex.re v2))),
    (PrimFloat.leb _ (Math.abs (Complex.im v1 - Complex.im v2))),
    (no_distance (Complex.re v1) (Complex.re v2)),
    (no_distance (Complex.im v1) (Complex.im v2)); reflexivity.
Qed.

(** ** The equivalence tester *)

Section Tester.
Context (M : Math.lib).
Variable Object_prototype : gmap string string.
Variable random : nat -> float.
Variables ast1 ast2 : ast.

Local Abbreviation tested_names := (tested_names ast1 ast2).
Local Abbreviation per_round := (per_round ast1 ast2).
Local Abbreviation round_assignment := (round_assignment random ast1 ast2).
Local Abbreviation differ_at := (differ_at M Object_prototype random ast1 ast2).
Local Abbreviation round_differs := (round_differs M Object_prototype random ast1 ast2).
Local Abbreviation unequal_at := (unequal_at M Object_prototype random ast1 ast2).
Local Abbreviation round_unequal := (round_unequal M Object_prototype random ast1 ast2).

Lemma assign_all_drawn names : forall assignment k,
  snd (assign_all random names assignment k) = (k + 2 * length names)%nat.
Proof.
  induction names as [|n names IH]; intros assignment k; cbn [assign_all snd length].
  - lia.
  - rewrite IH. lia.
Qed.

Lemma try_round_differs assignment v :
  try_round M Object_prototype ast1 ast2 assignment = Ok (Some v) <->
  exists v1 v2,
    evalAst M ast1 (visible Object_prototype assignment) = Ok v1 /\
    evalAst M ast2 (visible Object_prototype assignment) = Ok v2 /\
    Complex.approxEquals v1 v2 equivalence_eps = false /\
    v = NotEqual assignment (Complex.toString v1) (Complex.toString v2).
Proof.
  unfold try_round. split.
  - destruct (evalAst M ast1 _) as [v1|e1]; [|discriminate].
    destruct (evalAst M ast2 _) as [v2|e2]; [|discriminate].
    cbn [bind].
    destruct (Complex.approxEquals v1 v2 equivalence_eps) eqn:Heq; [discriminate|].
    cbn [negb]. intros [= <-]. exists v1, v2. auto.
  - intros (v1 & v2 & -> & -> & Heq & ->). cbn [bind]. rewrite Heq. reflexivity.
Qed.

(** The loop, started at round [t0]: it stops at the first round from
    [t0] on that differs, and otherwise runs through all of them. *)
Lemma trials_loop_spec trials : forall t0,
  match trials_loop M Object_prototype random ast1 ast2 tested_names trials
          (t0 * per_round) with
  | (NotEqual assignment s1 s2, drawn) =>
      exists t v1 v2,
        (t0 <= t < t0 + trials)%nat /\
        (forall t', (t0 <= t' < t)%nat -> ~ round_differs t') /\
        differ_at t v1 v2 /\
        assignment = round_assignment t /\
        s1 = Complex.toString v1 /\ s2 = Complex.toString v2 /\
        drawn = ((t + 1) * per_round)%nat
  | (Equal, drawn) =>
      (forall t, (t0 <= t < t0 + trials)%nat -> ~ round_differs t) /\
      drawn = ((t0 + trials) * per_round)%nat
  end.
Proof.
  induction trials as [|trials IH]; intros t0; cbn [trials_loop].
  { split; [intros t Ht; lia|lia]. }
  pose proof (assign_all_drawn tested_names ∅ (t0 * per_round)) as Hdrawn.
  fold per_round in Hdrawn.
  assert (Hnow : fst (assign_all random tested_names ∅ (t0 * per_round))
                 = round_assignment t0) by reflexivity.
  destruct (assign_all random tested_names ∅ (t0 * per_round)) as [assignment k'].
  cbn [fst snd] in Hdrawn, Hnow. subst assignment.
  replace k' with (S t0 * per_round)%nat by lia.
  destruct (try_round M Object_prototype ast1 ast2 (round_assignment t0))
    as [[v|]|e] eqn:Htry.
  { (* the round differs: the loop returns *)
    apply try_round_differs in Htry as (v1 & v2 & H1 & H2 & Heq & ->).
    exists t0, v1, v2. repeat split; try lia; assumption. }
  (* the round agrees, or is discarded: the loop goes on *)
  all: assert (Hno : ~ round_differs t0)
    by (intros (v1 & v2 & H1 & H2 & Heq);
        pose proof (proj2 (try_round_differs (round_assignment t0) _)
                      (ex_intro _ v1 (ex_intro _ v2
                         (conj H1 (conj H2 (conj Heq eq_refl)))))) as Hd;
        congruence).
  all: specialize (IH (S t0)).
  all: destruct (trials_loop M Object_prototype random ast1 ast2 tested_names trials
                   (S t0 * per_round)) as [[|assignment s1 s2] drawn].
  all: try (destruct IH as [IH ->]; split; [|lia];
            intros t Ht; destruct (Nat.eq_dec t t0) as [->|Hne];
            [exact Hno|apply IH; lia]).
  all: destruct IH as (t & v1 & v2 & Ht & Hfirst & Hrest);
    exists t, v1, v2; split; [lia|split; [|exact Hrest]];
    intros t' Ht'; destruct (Nat.eq_dec t' t0) as [->|Hne];
    [exact Hno|apply Hfirst; lia].
Qed.

(** The first round that differs, if there is one, is unique, and so are
    the two values of a round. *)
Lemma first_differing_unique t t' :
  round_differs t -> (forall u, (u < t)%nat -> ~ round_differs u) ->
  round_differs t' -> (forall u, (u < t')%nat -> ~ round_differs u) ->
  t = t'.
Proof.
  intros Ht Hfirst Ht' Hfirst'.
  destruct (Nat.lt_trichotomy t t') as [Hlt|[Heq|Hgt]]; [|exact Heq|].
  - destruct (Hfirst' t Hlt Ht).
  - destruct (Hfirst t' Hgt Ht').
Qed.

Lemma differ_at_unique t v1 v2 u1 u2 :
  differ_at t v1 v2 -> differ_at t u1 u2 -> v1 = u1 /\ v2 = u2.
Proof. intros (H1 & H2 & _) (K1 & K2 & _). split; congruence. Qed.

(** The verdict by the rounds, with the test of the code: the answer is
    "not equivalent" exactly when some round below [trials] evaluates both
    trees to values that [approxEquals] does not accept; the first such
    round gives the binding, the two texts and the number of samples. *)
Lemma verdict_by_rounds trials :
  let outcome := expressionsEquivalent M Object_prototype random ast1 ast2 trials in
  (fst outcome = Equal <-> forall t, (t < trials)%nat -> ~ round_differs t) /\
  (forall assignment s1 s2,
      fst outcome = NotEqual assignment s1 s2 <->
      exists t v1 v2,
        (t < trials)%nat /\
        (forall t', (t' < t)%nat -> ~ round_differs t') /\
        differ_at t v1 v2 /\
        assignment = round_assignment t /\
        s1 = Complex.toString v1 /\ s2 = Complex.toString v2) /\
  (forall t, (t < trials)%nat -> round_differs t ->
             (forall t', (t' < t)%nat -> ~ round_differs t') ->
             snd outcome = ((t + 1) * per_round)%nat) /\
  (fst outcome = Equal -> snd outcome = (trials * per_round)%nat).
Proof.
  unfold expressionsEquivalent. fold tested_names.
  pose proof (trials_loop_spec trials 0) as H. cbn [Nat.mul Nat.add] in H.
  destruct (trials_loop M Object_prototype random ast1 ast2 tested_names trials 0)
    as [[|assignment s1 s2] drawn]; cbn [fst snd].
  - destruct H as [Hnone ->].
    assert (Hno : forall t, (t < trials)%nat -> ~ round_differs t)
      by (intros t Ht; apply Hnone; lia).
    split; [|split; [|split]].
    + split; [intros _; exact Hno|reflexivity].
    + intros a s1 s2. split; [discriminate|].
      intros (t & v1 & v2 & Ht & _ & Hd & _). destruct (Hno t Ht). now exists v1, v2.
    + intros t Ht Hd _. destruct (Hno t Ht Hd).
    + reflexivity.
  - destruct H as (t & v1 & v2 & Ht & Hfirst & Hd & -> & -> & -> & ->).
    assert (Hfirst' : forall u, (u < t)%nat -> ~ round_differs u)
      by (intros u Hu; apply Hfirst; lia).
    assert (Hdiff : round_differs t) by now exists v1, v2.
    split; [|split; [|split]].
    + split; [discriminate|]. intros Hno. destruct (Hno t); [lia|exact Hdiff].
    + intros a s1 s2. split.
      * intros [= <- <- <-]. exists t, v1, v2. repeat split; try apply Hd; try lia.
        exact Hfirst'.
      * intros (t' & u1 & u2 & Ht' & Hf' & Hd' & -> & -> & ->).
        assert (t = t') as <-.
        { apply first_differing_unique; try assumption. now exists u1, u2. }
        destruct (differ_at_unique t v1 v2 u1 u2 Hd Hd') as [<- <-]. reflexivity.
    + intros t' Ht' Hd' Hf'.
      now rewrite (first_differing_unique t t' Hdiff Hfirst' Hd' Hf').
    + discriminate.
Qed.

(** The test of the code in terms of distances. *)
Lemma differ_at_distance t v1 v2 : differ_at t v1 v2 <-> unequal_at t v1 v2.
Proof.
  split; intros (H1 & H2 & H3); (split; [exact H1|split; [exact H2|]]).
  - rewrite approxEquals_distance in H3. now apply negb_false_iff in H3.
  - rewrite approxEquals_distance. now apply negb_false_iff.
Qed.

Lemma round_differs_distance t : round_differs t <-> round_unequal t.
Proof.
  split; intros (v1 & v2 & H); exists v1, v2; now apply differ_at_distance.
Qed.

(** C7, as the code has it. A round in which one of the two evaluations
    fails counts for nothing. The tester answers "not equivalent" exactly
    when some round below [trials] evaluates both trees to values that
    differ beyond 1e-6 in a component, the distance being computed in
    binary64 arithmetic, or that are incomparable, a pair of components
    having no distance: one is [NaN], or both are the same infinity. It
    then stops at the first such round, having drawn the samples of the
    rounds up to it only, and reports the binding of that round and the
    two values in text form. In every other case, the one where all
    rounds are discarded included, it answers "equivalent" after
    [trials] rounds. *)
Theorem equivalence_verdict trials :
  let outcome := expressionsEquivalent M Object_prototype random ast1 ast2 trials in
  (fst outcome = Equal <-> forall t, (t < trials)%nat -> ~ round_unequal t) /\
  (forall assignment s1 s2,
      fst outcome = NotEqual assignment s1 s2 <->
      exists t v1 v2,
        (t < trials)%nat /\
        (forall t', (t' < t)%nat -> ~ round_unequal t') /\
        unequal_at t v1 v2 /\
        assignment = round_assignment t /\
        s1 = Complex.toString v1 /\ s2 = Complex.toString v2) /\
  (forall t, (t < trials)%nat -> round_unequal t ->
             (forall t', (t' < t)%nat -> ~ round_unequal t') ->
             snd outcome = ((t + 1) * per_round)%nat) /\
  (fst outcome = Equal -> snd outcome = (trials * per_round)%nat).
Proof.
  pose proof (verdict_by_rounds trials) as (Hequal & Hnot & Hdrawn & Hall).
  cbv zeta in *.
  assert (Hno : forall t, (forall t', (t' < t)%nat -> ~ round_differs t')
                          <-> (forall t', (t' < t)%nat -> ~ round_unequal t')).
  { intros t. split; intros H t' Ht' Hd; apply (H t' Ht');
      now apply round_differs_distance. }
  split; [|split; [|split]].
  - rewrite Hequal. apply Hno.
  - intros assignment s1 s2. rewrite Hnot. split.
    + intros (t & v1 & v2 & Ht & Hfirst & Hd & Hrest).
      exists t, v1, v2. split; [exact Ht|]. split; [now apply Hno|].
      split; [now apply differ_at_distance|exact Hrest].
    + intros (t & v1 & v2 & Ht & Hfirst & Hd & Hrest).
      exists t, v1, v2. split; [exact Ht|]. split; [now apply Hno|].
      split; [now apply differ_at_distance|exact Hrest].
  - intros t Ht Hd Hfirst. apply (Hdrawn t Ht).
    + now apply round_differs_distance.
    + now apply Hno.
  - exact Hall.
Qed.

(** In particular, when every round is discarded the answer is
    "equivalent". *)
Lemma all_rounds_discarded trials :
  (forall t, (t < trials)%nat ->
     (exists e, evalAst M ast1 (visible Object_prototype (round_assignment t)) = Err e)
     \/ (exists e, evalAst M ast2 (visible Object_prototype (round_assignment t)) = Err e)) ->
  fst (expressionsEquivalent M Object_prototype random ast1 ast2 trials) = Equal.
Proof.
  intros Hall. unfold expressionsEquivalent. fold tested_names.
  pose proof (trials_loop_spec trials 0) as H. cbn [Nat.mul Nat.add] in H.
  destruct (trials_loop M Object_prototype random ast1 ast2 tested_names trials 0)
    as [[|assignment s1 s2] drawn]; [reflexivity|].
  destruct H as (t & v1 & v2 & Ht & _ & (H1 & H2 & _) & _).
  destruct (Hall t) as [[e He]|[e He]]; [lia|congruence|congruence].
Qed.
End Tester.

(** The quotient 1/0 fails in every round, so it is found equivalent to 1. *)
Lemma equivalence_verdict_witness :
  fst (expressionsEquivalent Math.series ∅ (fun _ => 0.5%float)
         (Bin Div (Num (real 1)) (Num (real 0))) (Num (real 1)) 3) = Equal.
Proof.
  apply (proj1 (equivalence_verdict Math.series ∅ (fun _ => 0.5%float)
                  (Bin Div (Num (real 1)) (Num (real 0))) (Num (real 1)) 3)).
  intros t Ht (v1 & v2 & H1 & _). cbn [evalAst bind] in H1. discriminate H1.
Defined.

(** A numeral of 400 digits reads as infinity. Tested against itself, it
    gives two equal results in the first round, which do not differ
    beyond 1e-6, and the answer is "not equivalent". *)
Lemma equal_results_reported_unequal :
  parse (string_of_list_ascii (repeat "9"%char 400)) = Ok (Num (real infinity)) /\
  (forall M vars, evalAst M (Num (real infinity)) vars = Ok (real infinity)) /\
  differ_beyond equivalence_eps (real infinity) (real infinity) = false /\
  expressionsEquivalent Math.series ∅ (fun _ => 0.5%float)
    (Num (real infinity)) (Num (real infinity)) 8
  = (NotEqual ∅ "Infinity" "Infinity", 0%nat).
Proof. repeat split; vm_compute; reflexivity. Qed.

(** Two rounds on x+1 and x+2: the first one already differs. *)
Lemma unequal_sums :
  expressionsEquivalent Math.series ∅ (fun _ => 0.75%float)
    (Bin Add (Var (Some "x")) (Num (real 1))) (Bin Add (Var (Some "x")) (Num (real 2))) 2
  = (NotEqual {[ "x" := "2.5+2.5i" ]} "3.5+2.5i" "4.5+2.5i", 2%nat).
Proof. vm_compute. reflexivity. Qed.

(** * Further properties *)

(** ** Strings *)

Lemma append_cons c a b : String c a +++ b = String c (a +++ b).
Proof. reflexivity. Qed.

Lemma append_nil b : "" +++ b = b.
Proof. reflexivity. Qed.

Lemma take_drop_while p s : JS.take_while p s +++ JS.drop_while p s = s.
Proof.
  induction s as [|c s IH]; cbn [JS.take_while JS.drop_while]; [reflexivity|].
  destruct (p c); [now rewrite append_cons, IH|reflexivity].
Qed.

Lemma all_chars_take_while p s : JS.all_chars p (JS.take_while p s) = true.
Proof.
  induction s as [|c s IH]; cbn [JS.take_while]; [reflexivity|].
  destruct (p c) eqn:Hc; cbn [JS.all_chars]; [now rewrite Hc|reflexivity].
Qed.

Lemma all_chars_append p a b :
  JS.all_chars p (a +++ b) = JS.all_chars p a && JS.all_chars p b.
Proof.
  induction a as [|c a IH]; rewrite ?append_cons, ?append_nil; cbn [JS.all_chars];
    [reflexivity|].
  now rewrite IH, andb_assoc.
Qed.

Lemma all_chars_impl (p q : ascii -> bool) s :
  (forall c, p c = true -> q c = true) ->
  JS.all_chars p s = true -> JS.all_chars q s = true.
Proof.
  intros Hpq. induction s as [|c s IH]; cbn [JS.all_chars]; [reflexivity|].
  intros [Hc Hs]%andb_true_iff. now rewrite (Hpq c Hc), IH.
Qed.

Lemma drop_while_empty p s : JS.is_empty (JS.drop_while p s) = JS.all_chars p s.
Proof.
  induction s as [|c s IH]; cbn [JS.drop_while JS.all_chars]; [reflexivity|].
  destruct (p c); [exact IH|reflexivity].
Qed.

Lemma drop_while_all p a b :
  JS.all_chars p a = true -> JS.drop_while p (a +++ b) = JS.drop_while p b.
Proof.
  induction a as [|c a IH]; rewrite ?append_cons, ?append_nil;
    cbn [JS.all_chars JS.drop_while]; [reflexivity|].
  intros [Hc Ha]%andb_true_iff. rewrite Hc. exact (IH Ha).
Qed.

Lemma append_assoc a b c : (a +++ b) +++ c = a +++ b +++ c.
Proof.
  induction a as [|x a IH]; rewrite ?append_cons, ?append_nil;
    [reflexivity|now rewrite IH].
Qed.

Lemma append_empty_r a : a +++ "" = a.
Proof.
  induction a as [|x a IH]; rewrite ?append_cons, ?append_nil;
    [reflexivity|now rewrite IH].
Qed.

(** White space is disjoint from the characters of the tokens. *)
Definition not_space (c : ascii) : bool := negb (JS.is_space c).

Lemma ident_char_not_space c : JS.is_ident_char c = true -> not_space c = true.
Proof. destruct c as [[] [] [] [] [] [] [] []]; intros H; try reflexivity; discriminate H. Qed.

Lemma digit_not_space c : JS.is_digit c = true -> not_space c = true.
Proof. destruct c as [[] [] [] [] [] [] [] []]; intros H; try reflexivity; discriminate H. Qed.

Lemma punct_not_space c : is_punct c = true -> not_space c = true.
Proof. destruct c as [[] [] [] [] [] [] [] []]; intros H; try reflexivity; discriminate H. Qed.

Lemma remove_spaces_drop s :
  JS.remove_spaces (JS.drop_while JS.is_space s) = JS.remove_spaces s.
Proof.
  unfold JS.remove_spaces.
  induction s as [|c s IH]; cbn [JS.drop_while JS.remove_chars]; [reflexivity|].
  destruct (JS.is_space c) eqn:Hc; [exact IH|].
  cbn [JS.remove_chars]. now rewrite Hc.
Qed.

Lemma remove_spaces_token tok rest :
  JS.all_chars not_space tok = true ->
  JS.remove_spaces (tok +++ rest) = tok +++ JS.remove_spaces rest.
Proof.
  unfold JS.remove_spaces.
  induction tok as [|c tok IH]; rewrite ?append_cons, ?append_nil;
    cbn [JS.all_chars JS.remove_chars]; [reflexivity|].
  intros [Hc Ht]%andb_true_iff. unfold not_space in Hc.
  apply negb_true_iff in Hc. rewrite Hc. now rewrite (IH Ht).
Qed.

(** ** What the lexer keeps *)

(** An alternative that is selected splits the text into the token and the
    rest, and the token has no white space in it. *)
Lemma first_match_split s tok rest :
  first_match token_group s = Some (tok, rest) ->
  s = tok +++ rest /\ JS.all_chars not_space tok = true.
Proof.
  unfold token_group, first_match.
  destruct (alt_ident s) as [[t r]|] eqn:Hid.
  { intros [= <- <-]. unfold alt_ident in Hid.
    destruct s as [|c s']; [discriminate|].
    destruct (JS.is_ident_start c) eqn:Hc; [|discriminate].
    injection Hid as <- <-. split.
    - now rewrite append_cons, take_drop_while.
    - cbn [JS.all_chars]. rewrite ident_char_not_space
        by (unfold JS.is_ident_char; now rewrite Hc).
      apply (all_chars_impl JS.is_ident_char); [exact ident_char_not_space|].
      apply all_chars_take_while. }
  destruct (alt_decimal s) as [[t r]|] eqn:Hdec.
  { intros [= <- <-]. unfold alt_decimal in Hdec.
    pose proof (take_drop_while JS.is_digit s) as Hs.
    destruct (JS.drop_while JS.is_digit s) as [|c r0]; [discriminate|].
    destruct c as [[] [] [] [] [] [] [] []]; try discriminate Hdec.
    destruct (JS.is_empty (JS.take_while JS.is_digit r0)); [discriminate|].
    injection Hdec as <- <-. split.
    - rewrite <- Hs at 1. rewrite <- (take_drop_while JS.is_digit r0) at 1.
      now rewrite !append_assoc.
    - rewrite !all_chars_append.
      rewrite !(all_chars_impl JS.is_digit not_space _ digit_not_space
                  (all_chars_take_while JS.is_digit _)).
      reflexivity. }
  destruct (alt_integer s) as [[t r]|] eqn:Hint.
  { intros [= <- <-]. unfold alt_integer in Hint.
    destruct (JS.is_empty (JS.take_while JS.is_digit s)); [discriminate|].
    injection Hint as <- <-. split; [now rewrite take_drop_while|].
    apply (all_chars_impl JS.is_digit); [exact digit_not_space|].
    apply all_chars_take_while. }
  destruct (alt_punct s) as [[t r]|] eqn:Hp.
  { intros [= <- <-]. unfold alt_punct in Hp.
    destruct s as [|c s']; [discriminate|].
    destruct (is_punct c) eqn:Hc; [|discriminate].
    injection Hp as <- <-. split; [reflexivity|].
    cbn [JS.all_chars]. now rewrite (punct_not_space c Hc). }
  destruct (alt_starstar s) as [[t r]|] eqn:Hss.
  { exfalso. unfold alt_starstar in Hss.
    destruct s as [|c s']; [discriminate|].
    destruct c as [[] [] [] [] [] [] [] []]; discriminate. }
  destruct (alt_i s) as [[t r]|] eqn:Hi; [|discriminate].
  exfalso. unfold alt_i in Hi.
  destruct s as [|c s']; [discriminate|].
  destruct c as [[] [] [] [] [] [] [] []]; discriminate.
Qed.

Lemma join_empty_snoc l tok : join "" (l ++ [tok]) = join "" l +++ tok.
Proof.
  destruct l as [|x l]; [reflexivity|].
  cbn [join app]. rewrite fold_left_app. reflexivity.
Qed.

Lemma tokenize_loop_text fuel : forall rest tokens out,
  tokenize_loop fuel rest tokens = Ok out ->
  join "" out = join "" tokens +++ JS.remove_spaces rest.
Proof.
  induction fuel as [|fuel IH]; intros rest tokens out.
  - destruct rest; [|discriminate]. intros [= <-]. now rewrite append_empty_r.
  - destruct rest as [|c rest]; [intros [= <-]; now rewrite append_empty_r|].
    cbn [tokenize_loop]. unfold exec_at.
    destruct (first_match token_group (JS.drop_while JS.is_space (String c rest)))
      as [[tok rest']|] eqn:Hm; [|discriminate].
    intros H. apply IH in H. rewrite H, join_empty_snoc, append_assoc. f_equal.
    apply first_match_split in Hm as [Hs Htok].
    rewrite <- (remove_spaces_drop (String c rest)), Hs.
    now rewrite remove_spaces_token, remove_spaces_drop.
Qed.

(** Tokenizing loses white space and nothing else: the tokens, put
    together again, are the input without its white space. *)
Theorem tokens_spell_input input tokens :
  tokenize input = Ok tokens -> join "" tokens = JS.remove_spaces input.
Proof. intros H. apply tokenize_loop_text in H. exact H. Qed.

Lemma tokens_spell_input_witness :
  join "" ["conj"; "("; "x1"; "+"; "2.5"; "i"; ")"] = JS.remove_spaces " conj( x1 +2.5i ) ".
Proof. apply tokens_spell_input. vm_compute. reflexivity. Defined.

(** ** The shapes of the tokens *)

(** The three shapes of a token: an identifier (a letter or underscore,
    then letters, digits and underscores), a numeral (digits, or digits
    that may be none, a dot and at least one digit) and one of the eight
    punctuation characters. *)
Definition is_digits (t : string) : bool :=
  negb (JS.is_empty t) && JS.all_chars JS.is_digit t.

Definition token_shape (t : string) : Prop :=
  is_identifier_text (Some t) = true
  \/ is_digits t = true
  \/ is_decimal_text (Some t) = true
  \/ In t ["("; ")"; "+"; "-"; "*"; "/"; "^"; ","].

Lemma first_match_shape s tok rest :
  first_match token_group s = Some (tok, rest) -> token_shape tok.
Proof.
  unfold token_group, first_match.
  destruct (alt_ident s) as [[t r]|] eqn:Hid.
  { intros [= <- <-]. left. unfold alt_ident in Hid.
    destruct s as [|c s']; [discriminate|].
    destruct (JS.is_ident_start c) eqn:Hc; [|discriminate].
    injection Hid as <- <-. unfold is_identifier_text. cbn [ToString].
    now rewrite Hc, all_chars_take_while. }
  destruct (alt_decimal s) as [[t r]|] eqn:Hdec.
  { intros [= <- <-]. right. right. left. unfold alt_decimal in Hdec.
    destruct (JS.drop_while JS.is_digit s) as [|c r0]; [discriminate|].
    destruct c as [[] [] [] [] [] [] [] []]; try discriminate Hdec.
    destruct (JS.is_empty (JS.take_while JS.is_digit r0)) eqn:He; [discriminate|].
    injection Hdec as <- <-. unfold is_decimal_text. cbn [ToString].
    rewrite drop_while_all by apply all_chars_take_while.
    rewrite append_cons, append_nil. cbn [JS.drop_while].
    change (JS.is_digit ".") with false. cbv iota.
    now rewrite He, all_chars_take_while. }
  destruct (alt_integer s) as [[t r]|] eqn:Hint.
  { intros [= <- <-]. right. left. unfold alt_integer in Hint.
    destruct (JS.is_empty (JS.take_while JS.is_digit s)) eqn:He; [discriminate|].
    injection Hint as <- <-. unfold is_digits.
    now rewrite He, all_chars_take_while. }
  destruct (alt_punct s) as [[t r]|] eqn:Hp.
  { intros [= <- <-]. right. right. right. unfold alt_punct in Hp.
    destruct s as [|c s']; [discriminate|].
    destruct (is_punct c) eqn:Hc; [|discriminate].
    injection Hp as <- <-.
    destruct c as [[] [] [] [] [] [] [] []]; try discriminate Hc; cbn [In]; auto 10. }
  destruct (alt_starstar s) as [[t r]|] eqn:Hss.
  { exfalso. unfold alt_starstar in Hss.
    destruct s as [|c s']; [discriminate|].
    destruct c as [[] [] [] [] [] [] [] []]; discriminate. }
  destruct (alt_i s) as [[t r]|] eqn:Hi; [|discriminate].
  exfalso. unfold alt_i in Hi.
  destruct s as [|c s']; [discriminate|].
  destruct c as [[] [] [] [] [] [] [] []]; discriminate.
Qed.

Lemma tokenize_loop_shape fuel : forall rest tokens out,
  Forall token_shape tokens ->
  tokenize_loop fuel rest tokens = Ok out ->
  Forall token_shape out.
Proof.
  induction fuel as [|fuel IH]; intros rest tokens out Hacc.
  - destruct rest; [|discriminate]. now intros [= <-].
  - destruct rest as [|c rest]; [now intros [= <-]|].
    cbn [tokenize_loop]. unfold exec_at.
    destruct (first_match token_group (JS.drop_while JS.is_space (String c rest)))
      as [[tok rest']|] eqn:Hm; [|discriminate].
    apply IH. apply Forall_app. split; [exact Hacc|].
    constructor; [exact (first_match_shape _ _ _ Hm)|constructor].
Qed.

(** A text of one of the three shapes is not empty, has no white space in
    it, and is not the two stars. *)
Lemma token_shape_plain t :
  token_shape t ->
  JS.is_empty t = false /\ JS.all_chars not_space t = true /\ t <> "**".
Proof.
  intros [H|[H|[H|H]]].
  - unfold is_identifier_text in H. cbn [ToString] in H.
    destruct t as [|c s]; [discriminate|].
    apply andb_true_iff in H as [Hc Hs].
    split; [reflexivity|split].
    + cbn [JS.all_chars]. rewrite ident_char_not_space
        by (unfold JS.is_ident_char; now rewrite Hc).
      exact (all_chars_impl JS.is_ident_char not_space s ident_char_not_space Hs).
    + intros [= -> _]. discriminate Hc.
  - unfold is_digits in H. apply andb_true_iff in H as [Hn Hd].
    split; [now apply negb_true_iff|split].
    + exact (all_chars_impl JS.is_digit not_space t digit_not_space Hd).
    + intros ->. discriminate Hd.
  - unfold is_decimal_text in H. cbn [ToString] in H.
    pose proof (take_drop_while JS.is_digit t) as Ht.
    destruct (JS.drop_while JS.is_digit t) as [|c r]; [discriminate|].
    destruct c as [[] [] [] [] [] [] [] []]; try discriminate H.
    apply andb_true_iff in H as [_ Hr].
    rewrite <- Ht. split; [|split].
    + destruct (JS.take_while JS.is_digit t); reflexivity.
    + rewrite all_chars_append. cbn [JS.all_chars].
      rewrite (all_chars_impl JS.is_digit not_space _ digit_not_space
                 (all_chars_take_while JS.is_digit t)).
      rewrite (all_chars_impl JS.is_digit not_space r digit_not_space Hr).
      reflexivity.
    + intros Hss. rewrite Ht in Hss. subst t. discriminate Ht.
  - cbn [In] in H.
    repeat (destruct H as [<-|H]; [repeat split; discriminate|]). destruct H.
Qed.

(** Every token of a tokenized text is an identifier, a numeral or one
    punctuation character: the lexer hands the parser nothing else, in
    particular no empty token, no token with white space and no token of
    two stars. *)
Theorem tokens_have_shape input tokens :
  tokenize input = Ok tokens ->
  Forall (fun t => token_shape t /\ JS.is_empty t = false
                   /\ JS.all_chars not_space t = true /\ t <> "**") tokens.
Proof.
  intros H.
  apply (Forall_impl _ (fun t Ht => conj Ht (token_shape_plain t Ht))).
  revert H. apply tokenize_loop_shape. constructor.
Qed.

Lemma tokens_have_shape_witness :
  Forall (fun t => token_shape t /\ JS.is_empty t = false
                   /\ JS.all_chars not_space t = true /\ t <> "**")
    ["raiz"; "("; ".5"; "i"; ")"; "/"; "12"].
Proof. apply (tokens_have_shape "raiz(.5i) / 12"). vm_compute. reflexivity. Defined.

(** Texts that only begin like a token have none of the shapes. *)
Example not_token_shapes : ~ token_shape "1 2" /\ ~ token_shape "2**3" /\ ~ token_shape "".
Proof.
  repeat split; intros [H|[H|[H|H]]]; try discriminate H;
    cbn [In] in H; repeat (destruct H as [H|H]; [discriminate H|]); destruct H.
Qed.

(** A text of white space only, unless it is empty, is no sequence of
    tokens: the pattern needs a token after the white space. The failure
    quotes the first 20 characters. *)
Theorem blank_input_rejected input :
  JS.all_chars JS.is_space input = true -> input <> "" ->
  tokenize input = Err (InvalidToken (JS.slice 0 20 input)).
Proof.
  intros Hblank Hne. unfold tokenize.
  destruct input as [|c input]; [congruence|].
  cbn [String.length tokenize_loop]. unfold exec_at.
  assert (Hrest : JS.drop_while JS.is_space (String c input) = "").
  { pose proof (drop_while_empty JS.is_space (String c input)) as H.
    rewrite Hblank in H. now destruct (JS.drop_while JS.is_space (String c input)). }
  rewrite Hrest. reflexivity.
Qed.

Lemma blank_input_rejected_witness :
  tokenize "   " = Err (InvalidToken "   ").
Proof. apply (blank_input_rejected "   "); [reflexivity|discriminate]. Defined.

(** ** The failures of the parser *)

Lemma list_of_append a b :
  list_ascii_of_string (a +++ b) = list_ascii_of_string a ++ list_ascii_of_string b.
Proof.
  induction a as [|c a IH]; rewrite ?append_cons, ?append_nil;
    cbn [list_ascii_of_string app]; [reflexivity|now rewrite IH].
Qed.

Lemma all_chars_list p s :
  JS.all_chars p s = forallb p (list_ascii_of_string s).
Proof.
  induction s as [|c s IH]; cbn [JS.all_chars list_ascii_of_string forallb];
    [reflexivity|now rewrite IH].
Qed.

Lemma all_chars_rev p s : JS.all_chars p (JS.rev_string s) = JS.all_chars p s.
Proof.
  unfold JS.rev_string.
  rewrite !all_chars_list, list_ascii_of_string_of_list_ascii.
  apply eq_true_iff_eq. rewrite !forallb_forall.
  split; intros H c Hc; apply H; [now apply in_rev in Hc|now apply in_rev].
Qed.

Lemma all_chars_drop_while p s :
  JS.all_chars p (JS.drop_while p s) = JS.all_chars p s.
Proof.
  induction s as [|c s IH]; cbn [JS.drop_while JS.all_chars]; [reflexivity|].
  destruct (p c) eqn:Hc; [exact IH|]. cbn [JS.all_chars]. now rewrite Hc.
Qed.

Lemma is_empty_rev s : JS.is_empty (JS.rev_string s) = JS.is_empty s.
Proof.
  unfold JS.rev_string. destruct s as [|c s]; [reflexivity|].
  cbn [list_ascii_of_string rev JS.is_empty].
  destruct (rev (list_ascii_of_string s)); reflexivity.
Qed.

(** [trim] leaves nothing exactly of the texts that are white space only. *)
Lemma trim_empty s : JS.is_empty (JS.trim s) = JS.all_chars JS.is_space s.
Proof.
  unfold JS.trim.
  now rewrite is_empty_rev, drop_while_empty, all_chars_rev, all_chars_drop_while.
Qed.

(** A numeral followed by the marker is never the empty literal. *)
Lemma fromString_marker s e : Complex.fromString (s +++ "i") <> Err e.
Proof.
  intros H.
  destruct (fromString_cases (s +++ "i")) as [[He _]|[_ (a & b & Hr)]].
  - rewrite trim_empty, all_chars_append in He.
    apply andb_true_iff in He as [_ He]. discriminate He.
  - rewrite Hr in H. discriminate H.
Qed.

Lemma consume_guarded tokens e pos :
  is_token (peek tokens pos) e = true ->
  consume tokens (Some e) pos = Ok (peek tokens pos, S pos).
Proof. intros H. unfold consume. now rewrite H, andb_false_r. Qed.

(** The failures that can come out of the recursion. *)
Definition descent_failure (e : error) : Prop :=
  e = RecursionLimit \/ e = UnclosedParenthesis \/ e = UnclosedCall
  \/ exists t, e = InvalidPrimary t.

(** A [consume] with an expected token comes after a test for that token,
    and the literal handed to [fromString] ends in the marker: neither
    fails. *)
Ltac guarded_call :=
  repeat match goal with
  | C : negb _ = false |- _ => apply negb_false_iff in C
  end;
  match goal with
  | E : consume _ None _ = Err _ |- _ => discriminate E
  | E : consume ?ts (Some ?e) ?p = Err _, C : is_token (peek ?ts ?p) ?e = true |- _ =>
      rewrite (consume_guarded ts e p C) in E; discriminate E
  | E : Complex.fromString (_ +++ "i") = Err _ |- _ =>
      destruct (fromString_marker _ _ E)
  end.

Section ParserFailures.
Variable tokens : list string.

Lemma parser_failures fuel :
  (forall pos e, parsePrimary tokens fuel pos = Err e -> descent_failure e) /\
  (forall args pos e, parseArgs tokens fuel args pos = Err e -> descent_failure e) /\
  (forall pos e, parsePower tokens fuel pos = Err e -> descent_failure e) /\
  (forall lhs pos e, loopPower tokens fuel lhs pos = Err e -> descent_failure e) /\
  (forall pos e, parseMulDiv tokens fuel pos = Err e -> descent_failure e) /\
  (forall node pos e, loopMulDiv tokens fuel node pos = Err e -> descent_failure e) /\
  (forall pos e, parseAddSub tokens fuel pos = Err e -> descent_failure e) /\
  (forall node pos e, loopAddSub tokens fuel node pos = Err e -> descent_failure e).
Proof.
  induction fuel as [|fuel (IHp & IHa & IHw & IHlw & IHm & IHlm & IHs & IHls)].
  { repeat split; intros until e; intros [= <-]; left; reflexivity. }
  repeat split; intros until e; intros H;
    cbn [parsePrimary parseArgs parsePower loopPower parseMulDiv loopMulDiv
         parseAddSub loopAddSub] in H;
    invert_bodies; try guarded_call;
    first
      [ match goal with
        | E : parsePrimary _ _ _ = Err _ |- _ => exact (IHp _ _ E)
        | E : parseArgs _ _ _ _ = Err _ |- _ => exact (IHa _ _ _ E)
        | E : parsePower _ _ _ = Err _ |- _ => exact (IHw _ _ E)
        | E : loopPower _ _ _ _ = Err _ |- _ => exact (IHlw _ _ _ E)
        | E : parseMulDiv _ _ _ = Err _ |- _ => exact (IHm _ _ E)
        | E : loopMulDiv _ _ _ _ = Err _ |- _ => exact (IHlm _ _ _ E)
        | E : parseAddSub _ _ _ = Err _ |- _ => exact (IHs _ _ E)
        | E : loopAddSub _ _ _ _ = Err _ |- _ => exact (IHls _ _ _ E)
        end
      | unfold descent_failure; eauto 6 ].
Qed.

(** [parseExpression] has four failures and no other: a parenthesis or an
    argument list left open, a token that cannot start a primary, and
    tokens left over. It never reports an unexpected token (each
    [consume(expected)] follows a test for that token) nor an empty
    literal. *)
Theorem parseExpression_failures e :
  parseExpression tokens = Err e ->
  e = UnclosedParenthesis \/ e = UnclosedCall
  \/ (exists t, e = InvalidPrimary t /\ In t tokens)
  \/ (exists pos, (pos < length tokens)%nat
                  /\ e = TrailingTokens (join " " (skipn pos tokens))).
Proof.
  intros H. pose proof (parseExpression_total tokens) as Htotal.
  pose proof (parseExpression_invalid_primary tokens) as Hprim.
  unfold parseExpression in H, Htotal, Hprim.
  destruct (parseAddSub tokens (parse_fuel tokens) 0) as [[a pos]|e'] eqn:E;
    cbn [bind] in H, Htotal, Hprim.
  - destruct (pos <? length tokens)%nat eqn:Hpos; [|discriminate].
    injection H as <-. do 3 right. exists pos.
    split; [now apply Nat.ltb_lt|reflexivity].
  - injection H as <-.
    destruct (proj1 (proj2 (proj2 (proj2 (proj2 (proj2 (proj2
                (parser_failures (parse_fuel tokens)))))))) _ _ E)
      as [->|[->|[->|[t ->]]]]; auto.
    + congruence.
    + right. right. left. exists t. split; [reflexivity|]. now apply Hprim.
Qed.
End ParserFailures.

Lemma parseExpression_failures_witness :
  exists pos, (pos < 3)%nat
              /\ TrailingTokens "2 3" = TrailingTokens (join " " (skipn pos ["1"; "2"; "3"])).
Proof.
  destruct (parseExpression_failures ["1"; "2"; "3"] (TrailingTokens "2 3"))
    as [H|[H|[(t & H & _)|H]]]; try discriminate H.
  - vm_compute. reflexivity.
  - exact H.
Defined.

(** ** The bound on the recursion of the parser *)

(** The recursion of the parser is bounded by the number of tokens: with
    room for [4 * tokens.length + 4] nested calls or more, the descent
    never stops for want of room, and its result is the one
    [parseExpression] goes on with. *)
Theorem descent_bounded tokens fuel :
  (4 * length tokens + 4 <= fuel)%nat ->
  parseAddSub tokens fuel 0 <> Err RecursionLimit /\
  parseAddSub tokens fuel 0 = parseAddSub tokens (parse_fuel tokens) 0.
Proof.
  intros Hfuel.
  pose proof (proj1 (proj2 (proj2 (proj2 (proj2 (proj2 (proj2
                (parser_fuel tokens (4 * length tokens + 4)))))))) 0%nat) as Hlive.
  specialize (Hlive ltac:(lia)).
  pose proof (fun k => proj1 (proj2 (proj2 (proj2 (proj2 (proj2 (proj2
                (bounds_agree_plus tokens k (4 * length tokens + 4)))))))) 0%nat Hlive)
    as Hsame.
  assert (Hfuel' : parseAddSub tokens fuel 0
                   = parseAddSub tokens (4 * length tokens + 4) 0).
  { rewrite <- (Hsame (fuel - (4 * length tokens + 4))%nat). f_equal. lia. }
  split.
  - now rewrite Hfuel'.
  - rewrite Hfuel'. symmetry. unfold parse_fuel.
    rewrite <- (Hsame 4%nat). f_equal. lia.
Qed.

Lemma descent_bounded_witness :
  parseAddSub ["("; "1"; "+"; "x"; ")"] 24 0
  = parseAddSub ["("; "1"; "+"; "x"; ")"] (parse_fuel ["("; "1"; "+"; "x"; ")"]) 0.
Proof. apply descent_bounded. cbn [length]. lia. Defined.

(** Each of the four functions of the descent, when it succeeds, leaves
    the position further on than it found it, also when it read past the
    end of the tokens: no operand is empty. *)
Theorem descent_advances tokens fuel pos a pos' :
  parsePrimary tokens fuel pos = Ok (a, pos')
  \/ parsePower tokens fuel pos = Ok (a, pos')
  \/ parseMulDiv tokens fuel pos = Ok (a, pos')
  \/ parseAddSub tokens fuel pos = Ok (a, pos') ->
  (pos < pos')%nat.
Proof.
  pose proof (parser_progress tokens fuel) as (Hp & _ & Hw & _ & Hm & _ & Hs & _).
  intros [H|[H|[H|H]]]; eauto.
Qed.

Lemma descent_advances_witness : (1 < 4)%nat.
Proof.
  apply (descent_advances ["-"; "-"; "2"; "i"; "+"] 9 1 (Neg (Num (Complex.mk 0 2)))).
  left. vm_compute. reflexivity.
Defined.

(** ** The arithmetic of [Complex] on binary64 numbers *)

(** What the constructor keeps of a number, on its IEEE-754 description:
    a zero of either sign and [NaN] become the positive zero. *)
Definition kept (x : spec_float) : spec_float :=
  match x with
  | S754_zero _ | S754_nan => S754_zero false
  | _ => x
  end.

Lemma or_else_kept x : Prim2SF (JS.or_else x 0) = kept (Prim2SF x).
Proof.
  unfold JS.or_else, JS.strict_eq, JS.isNaN, PrimFloat.is_nan.
  rewrite !FloatAxioms.eqb_spec.
  change (Prim2SF 0) with (S754_zero false).
  destruct (Prim2SF x) as [s|s| |s m e] eqn:Hx.
  - destruct s; reflexivity.
  - destruct s; cbn; exact Hx.
  - reflexivity.
  - rewrite SFeqb_finite_refl. destruct s; cbn; exact Hx.
Qed.

Lemma kept_idempotent x : kept (kept x) = kept x.
Proof. destruct x; reflexivity. Qed.

Lemma kept_opp_opp x : kept (SFopp (kept (SFopp (kept x)))) = kept x.
Proof. destruct x as [s|s| |s m e]; try destruct s; reflexivity. Qed.

Lemma stored_again x : JS.or_else (JS.or_else x 0) 0 = JS.or_else x 0.
Proof. apply Prim2SF_inj. rewrite !or_else_kept. apply kept_idempotent. Qed.

Lemma stored_opp_opp x :
  JS.or_else (- JS.or_else (- JS.or_else x 0) 0) 0 = JS.or_else x 0.
Proof.
  apply Prim2SF_inj.
  rewrite !or_else_kept, !FloatAxioms.opp_spec, !or_else_kept, !FloatAxioms.opp_spec,
    !or_else_kept.
  apply kept_opp_opp.
Qed.

(** On the values the constructor builds, the constructor changes nothing,
    and negation and conjugation are their own inverses (a zero keeps its
    positive sign through both). *)
Theorem neg_conj_involutive a b :
  let z := Complex.new a b in
  Complex.new (Complex.re z) (Complex.im z) = z /\
  Complex.neg (Complex.neg z) = z /\
  Complex.conj (Complex.conj z) = z.
Proof.
  cbv zeta. unfold Complex.neg, Complex.conj, Complex.new.
  cbn [Complex.re Complex.im].
  rewrite !stored_opp_opp, !stored_again. auto.
Qed.

Lemma SFadd_comm x y : SFadd prec emax x y = SFadd prec emax y x.
Proof.
  destruct x as [sx|sx| |sx mx ex], y as [sy|sy| |sy my ey];
    try reflexivity; try (destruct sx, sy; reflexivity).
  cbn [SFadd]. now rewrite Z.min_comm, Z.add_comm.
Qed.

Lemma SFmul_comm x y : SFmul prec emax x y = SFmul prec emax y x.
Proof.
  destruct x as [sx|sx| |sx mx ex], y as [sy|sy| |sy my ey];
    try reflexivity; try (destruct sx, sy; reflexivity).
  cbn [SFmul]. now rewrite xorb_comm, Pos.mul_comm, Z.add_comm.
Qed.

Lemma float_add_comm (x y : float) : (x + y = y + x)%float.
Proof. apply Prim2SF_inj. rewrite !FloatAxioms.add_spec. apply SFadd_comm. Qed.

Lemma float_mul_comm (x y : float) : (x * y = y * x)%float.
Proof. apply Prim2SF_inj. rewrite !FloatAxioms.mul_spec. apply SFmul_comm. Qed.

(** Sum and product are commutative, exactly and in every case, rounding,
    overflow and the coercion of the constructor included. *)
Theorem add_mul_commutative a b :
  Complex.add a b = Complex.add b a /\ Complex.mul a b = Complex.mul b a.
Proof.
  unfold Complex.add, Complex.mul. split.
  - now rewrite (float_add_comm (Complex.re a)), (float_add_comm (Complex.im a)).
  - rewrite (float_mul_comm (Complex.re a) (Complex.re b)),
      (float_mul_comm (Complex.im a) (Complex.im b)),
      (float_mul_comm (Complex.re a) (Complex.im b)),
      (float_mul_comm (Complex.im a) (Complex.re b)).
    now rewrite (float_add_comm (Complex.im b * Complex.re a)).
Qed.

(** ** Approximate equality *)

Lemma abs_binary_round s m e :
  SFabs (binary_round prec emax s m e) = binary_round prec emax false m e.
Proof.
  unfold binary_round, binary_round_aux.
  destruct (shl_align m e _) as [mz ez].
  destruct (shr_fexp prec emax (Z.pos mz) ez loc_Exact) as [mrs' e'].
  destruct (shr_fexp prec emax _ e' loc_Exact) as [mrs'' e''].
  destruct (shr_m mrs''); [reflexivity| |reflexivity].
  destruct (e'' <=? emax - prec); reflexivity.
Qed.

Lemma abs_normalize_opp m e :
  SFabs (binary_normalize prec emax (- m) e false)
  = SFabs (binary_normalize prec emax m e false).
Proof.
  destruct m as [|p|p];
    [reflexivity
    |change (- Z.pos p) with (Z.neg p)
    |change (- Z.neg p) with (Z.pos p)];
    cbn [binary_normalize]; now rewrite !abs_binary_round.
Qed.

Lemma SFabs_sub_sym x y :
  SFabs (SFsub prec emax x y) = SFabs (SFsub prec emax y x).
Proof.
  destruct x as [sx|sx| |sx mx ex], y as [sy|sy| |sy my ey];
    try reflexivity; try (destruct sx, sy; reflexivity).
  cbn [SFsub]. rewrite (Z.min_comm ey ex).
  rewrite <- abs_normalize_opp. f_equal. f_equal. lia.
Qed.

Lemma abs_sub_sym (x y : float) : Math.abs (x - y) = Math.abs (y - x).
Proof.
  unfold Math.abs. apply Prim2SF_inj.
  rewrite !FloatAxioms.abs_spec, !FloatAxioms.sub_spec. apply SFabs_sub_sym.
Qed.

Lemma SFsub_diag x :
  SFsub prec emax x x
  = match x with
    | S754_nan | S754_infinity _ => S754_nan
    | _ => S754_zero false
    end.
Proof.
  destruct x as [s|s| |s m e]; try (destruct s; reflexivity); [reflexivity|].
  cbn [SFsub]. now rewrite Z.sub_diag.
Qed.

Lemma is_finite_spec x :
  PrimFloat.is_finite x
  = match Prim2SF x with
    | S754_nan | S754_infinity _ => false
    | _ => true
    end.
Proof.
  unfold PrimFloat.is_finite, PrimFloat.is_nan, PrimFloat.is_infinity.
  rewrite !FloatAxioms.eqb_spec, FloatAxioms.abs_spec.
  change (Prim2SF infinity) with (S754_infinity false).
  destruct (Prim2SF x) as [s|s| |s m e]; try reflexivity.
  - destruct s; reflexivity.
  - rewrite SFeqb_finite_refl. reflexivity.
Qed.

Lemma near_itself x eps :
  PrimFloat.ltb (Math.abs (x - x)) eps = PrimFloat.is_finite x && PrimFloat.ltb 0 eps.
Proof.
  unfold Math.abs.
  rewrite is_finite_spec, !FloatAxioms.ltb_spec, FloatAxioms.abs_spec,
    FloatAxioms.sub_spec.
  change (Prim2SF 0) with (S754_zero false).
  change (SF64sub (Prim2SF x) (Prim2SF x)) with (SFsub prec emax (Prim2SF x) (Prim2SF x)).
  rewrite SFsub_diag.
  destruct (Prim2SF x) as [s|s| |s m e]; reflexivity.
Qed.

(** [approxEquals] is symmetric. A value is approximately equal to itself
    exactly when both its components are finite and the tolerance is
    positive: a value with an infinite component is not even close to
    itself. *)
Theorem approxEquals_symmetric_reflexive a b eps :
  Complex.approxEquals a b eps = Complex.approxEquals b a eps /\
  Complex.approxEquals a a eps
  = PrimFloat.is_finite (Complex.re a) && PrimFloat.is_finite (Complex.im a)
    && PrimFloat.ltb 0 eps.
Proof.
  unfold Complex.approxEquals. split.
  - now rewrite (abs_sub_sym (Complex.re a)), (abs_sub_sym (Complex.im a)).
  - rewrite !near_itself.
    destruct (PrimFloat.is_finite (Complex.re a)), (PrimFloat.is_finite (Complex.im a)),
      (PrimFloat.ltb 0 eps); reflexivity.
Qed.

(** ** The principal square root *)

(** The IEEE-754 descriptions with sign [s], a zero or [NaN] apart. *)
Definition signed (s : bool) (x : spec_float) : Prop :=
  match x with
  | S754_zero _ | S754_nan => True
  | S754_infinity s' | S754_finite s' _ _ => s' = s
  end.

Lemma signed_round_aux s m e l : signed s (binary_round_aux prec emax s m e l).
Proof.
  unfold binary_round_aux.
  destruct (shr_fexp prec emax m e l) as [mrs' e'].
  destruct (shr_fexp prec emax _ e' loc_Exact) as [mrs'' e''].
  destruct (shr_m mrs''); [exact I| |exact I].
  destruct (e'' <=? emax - prec); reflexivity.
Qed.

Lemma signed_sqrt x : signed false (SFsqrt prec emax x).
Proof.
  destruct x as [s|s| |s m e]; try exact I; try (destruct s; reflexivity || exact I).
  destruct s; [exact I|]. cbn [SFsqrt].
  destruct (SFsqrt_core_binary prec emax (Z.pos m) e) as [[mz ez] lz].
  apply signed_round_aux.
Qed.

Lemma signed_mul_unit s m e y :
  signed false y -> signed s (SFmul prec emax (S754_finite s m e) y).
Proof.
  destruct y as [sy|sy| |sy my ey]; cbn [signed SFmul]; try exact (fun _ => I).
  - intros ->. now rewrite xorb_false_r.
  - intros ->. rewrite xorb_false_r. apply signed_round_aux.
Qed.

Lemma kept_signed_leb x :
  (signed false x -> SFleb (S754_zero false) (kept x) = true) /\
  (signed true x -> SFleb (kept x) (S754_zero false) = true).
Proof.
  destruct x as [s|s| |s m e]; cbn [signed kept]; split; try reflexivity;
    intros ->; reflexivity.
Qed.

(** [Math.sign(im || 1)] is [-1] for a negative [im] and [1] otherwise. *)
Lemma sign_or_one x :
  Math.sign (JS.or_else x 1) = if PrimFloat.ltb x 0 then (-1)%float else 1%float.
Proof.
  unfold Math.sign, JS.or_else, JS.strict_eq, JS.isNaN, PrimFloat.is_nan.
  rewrite !FloatAxioms.eqb_spec, (FloatAxioms.ltb_spec x 0).
  change (Prim2SF 0) with (S754_zero false).
  destruct (Prim2SF x) as [s|s| |s m e] eqn:Hx.
  - destruct s; reflexivity.
  - destruct s; cbn -[PrimFloat.ltb]; rewrite !FloatAxioms.ltb_spec, Hx; reflexivity.
  - reflexivity.
  - rewrite SFeqb_finite_refl.
    destruct s; cbn -[PrimFloat.ltb]; rewrite !FloatAxioms.ltb_spec, Hx; reflexivity.
Qed.

(** The square root is the principal one: its real part is never
    negative, and its imaginary part is never positive when the imaginary
    part of the argument is negative and never negative otherwise (a zero
    imaginary part counts as positive). This holds whatever [Math.hypot]
    returns. *)
Theorem sqrt_principal M z :
  PrimFloat.leb 0 (Complex.re (Complex.sqrt M z)) = true /\
  (if PrimFloat.ltb (Complex.im z) 0
   then PrimFloat.leb (Complex.im (Complex.sqrt M z)) 0 = true
   else PrimFloat.leb 0 (Complex.im (Complex.sqrt M z)) = true).
Proof.
  unfold Complex.sqrt, Complex.new, Math.sqrt. cbn [Complex.re Complex.im].
  rewrite sign_or_one. split.
  - rewrite FloatAxioms.leb_spec, or_else_kept, FloatAxioms.sqrt_spec.
    apply kept_signed_leb, signed_sqrt.
  - destruct (PrimFloat.ltb (Complex.im z) 0);
      rewrite FloatAxioms.leb_spec, or_else_kept, FloatAxioms.mul_spec,
        FloatAxioms.sqrt_spec.
    + change (Prim2SF (-1)) with (S754_finite true 4503599627370496 (-52)).
      apply kept_signed_leb, signed_mul_unit, signed_sqrt.
    + change (Prim2SF 1) with (S754_finite false 4503599627370496 (-52)).
      apply kept_signed_leb, signed_mul_unit, signed_sqrt.
Qed.

(** ** White space in a complex literal *)

Lemma remove_chars_list p s :
  JS.remove_chars p s
  = string_of_list_ascii (filter (fun c => negb (p c)) (list_ascii_of_string s)).
Proof.
  induction s as [|c s IH]; cbn [JS.remove_chars list_ascii_of_string filter];
    [reflexivity|].
  destruct (p c); cbn [negb string_of_list_ascii]; now rewrite IH.
Qed.

Lemma filter_rev_ascii (f : ascii -> bool) l : filter f (rev l) = rev (filter f l).
Proof.
  induction l as [|c l IH]; [reflexivity|].
  cbn [rev filter]. rewrite filter_app, IH. cbn [filter].
  destruct (f c); [reflexivity|now rewrite app_nil_r].
Qed.

Lemma remove_spaces_rev s :
  JS.remove_spaces (JS.rev_string s) = JS.rev_string (JS.remove_spaces s).
Proof.
  unfold JS.remove_spaces, JS.rev_string.
  rewrite !remove_chars_list, !list_ascii_of_string_of_list_ascii.
  now rewrite filter_rev_ascii.
Qed.

Lemma rev_string_involutive s : JS.rev_string (JS.rev_string s) = s.
Proof.
  unfold JS.rev_string.
  now rewrite list_ascii_of_string_of_list_ascii, rev_involutive,
    string_of_list_ascii_of_string.
Qed.

Lemma remove_spaces_trim s : JS.remove_spaces (JS.trim s) = JS.remove_spaces s.
Proof.
  unfold JS.trim.
  now rewrite remove_spaces_rev, remove_spaces_drop, remove_spaces_rev,
    rev_string_involutive, remove_spaces_drop.
Qed.

Lemma remove_spaces_idempotent s :
  JS.remove_spaces (JS.remove_spaces s) = JS.remove_spaces s.
Proof.
  unfold JS.remove_spaces.
  induction s as [|c s IH]; cbn [JS.remove_chars]; [reflexivity|].
  destruct (JS.is_space c) eqn:Hc; [exact IH|].
  cbn [JS.remove_chars]. now rewrite Hc, IH.
Qed.

Lemma all_space_remove_spaces s :
  JS.all_chars JS.is_space (JS.remove_spaces s) = JS.all_chars JS.is_space s.
Proof.
  unfold JS.remove_spaces.
  induction s as [|c s IH]; cbn [JS.remove_chars JS.all_chars]; [reflexivity|].
  destruct (JS.is_space c) eqn:Hc; [exact IH|].
  cbn [JS.all_chars]. now rewrite Hc.
Qed.

(** White space counts for nothing in a complex literal, wherever it
    stands: a text is read as the same text without its white space, and
    fails like it when nothing else is in it. *)
Theorem fromString_ignores_spaces s :
  Complex.fromString s = Complex.fromString (JS.remove_spaces s).
Proof.
  unfold Complex.fromString.
  rewrite !trim_empty, all_space_remove_spaces, !remove_spaces_trim,
    remove_spaces_idempotent.
  reflexivity.
Qed.

(** ** The variables of a tree *)

(** Induction on trees, with the arguments of a call as a list. *)
Section AstInduction.
Variable P : ast -> Prop.
Hypothesis HNum : forall value, P (Num value).
Hypothesis HVar : forall name, P (Var name).
Hypothesis HCall : forall name args, Forall P args -> P (Call name args).
Hypothesis HNeg : forall arg, P arg -> P (Neg arg).
Hypothesis HBin : forall op lhs rhs, P lhs -> P rhs -> P (Bin op lhs rhs).

Fixpoint ast_induction (a : ast) : P a :=
  match a with
  | Num value => HNum value
  | Var name => HVar name
  | Call name args =>
      HCall name args
        ((fix all (l : list ast) : Forall P l :=
            match l with
            | [] => @Forall_nil _ P
            | x :: l' => @Forall_cons _ P x l' (ast_induction x) (all l')
            end) args)
  | Neg arg => HNeg arg (ast_induction arg)
  | Bin op lhs rhs => HBin op lhs rhs (ast_induction lhs) (ast_induction rhs)
  end.
End AstInduction.

(** The [forEach] of [collectVars], and the [map] of [evalAst]. *)
Definition collectVars_each (l : list ast) (set : list (option string))
  : list (option string) :=
  fold_left (fun set a => collectVars a set) l set.

Section Arguments.
Context (M : Math.lib).
Variable vars : gmap string string.

Fixpoint evalArgs (l : list ast) : result (list Complex.t) :=
  match l with
  | [] => Ok []
  | a :: l' =>
      let* v := evalAst M a vars in
      let* vs := evalArgs l' in
      Ok (v :: vs)
  end.
End Arguments.

Lemma collectVars_call name args set :
  collectVars (Call name args) set = collectVars_each args (collectVars_each args set).
Proof. reflexivity. Qed.

Lemma evalAst_call M name args vars :
  evalAst M (Call name args) vars
  = let fn := toLowerCase name in
    let* vs := evalArgs M vars args in
    if String.eqb fn "conj" || String.eqb fn "conjugate" then
      match vs with
      | [z] => Ok (Complex.conj z)
      | _ => Err (ArityError "conj")
      end
    else if String.eqb fn "sqrt" || String.eqb fn "raiz" then
      match vs with
      | [z] => Ok (Complex.sqrt M z)
      | _ => Err (ArityError "sqrt")
      end
    else Err (UnknownFunction name).
Proof. reflexivity. Qed.

Lemma name_eqb_eq x y : name_eqb x y = true <-> x = y.
Proof.
  destruct x as [a|], y as [b|]; cbn [name_eqb]; try (split; congruence).
  rewrite String.eqb_eq. split; congruence.
Qed.

Lemma existsb_name x set : existsb (name_eqb x) set = true <-> In x set.
Proof.
  rewrite existsb_exists. split.
  - intros (y & Hy & Heq). apply name_eqb_eq in Heq. now subst.
  - intros H. exists x. split; [exact H|now apply name_eqb_eq].
Qed.

Lemma in_set_add n x set : In n (set_add x set) <-> In n set \/ n = x.
Proof.
  unfold set_add. destruct (existsb (name_eqb x) set) eqn:Hx.
  - apply existsb_name in Hx. split; [auto|]. intros [H| ->]; assumption.
  - rewrite in_app_iff. cbn [In]. split; intros [H|H]; auto.
    + destruct H as [H|[]]; auto.
Qed.

(** The names a tree adds to a set are those it adds to the empty set. *)
Definition adds_own_names (a : ast) : Prop :=
  forall set n, In n (collectVars a set) <-> In n set \/ In n (collectVars a []).

Lemma collectVars_each_in args :
  Forall adds_own_names args ->
  forall set n,
    In n (collectVars_each args set)
    <-> In n set \/ exists a, In a args /\ In n (collectVars a []).
Proof.
  induction 1 as [|a args Ha _ IH]; intros set n; cbn [collectVars_each fold_left].
  - split; [auto|]. intros [H|(a & [] & _)]. exact H.
  - fold (collectVars_each args (collectVars a set)). rewrite IH, (Ha set n).
    cbn [In]. split.
    + intros [[H|H]|(b & Hb & H)]; eauto 6.
    + intros [H|(b & [<-|Hb] & H)]; eauto 6.
Qed.

Lemma collectVars_in a : adds_own_names a.
Proof.
  induction a as [v|name|name args IH|arg IH|op lhs rhs IHl IHr] using ast_induction;
    intros set n.
  - cbn [collectVars In]. tauto.
  - cbn [collectVars]. rewrite !in_set_add. cbn [In]. tauto.
  - rewrite !collectVars_call, !(collectVars_each_in args IH). cbn [In].
    split.
    + intros [[H|H]|H]; auto.
    + intros [H|[[[]|H]|H]]; auto.
  - cbn [collectVars]. apply IH.
  - cbn [collectVars]. rewrite (IHr (collectVars lhs set)), (IHl set),
      (IHr (collectVars lhs [])). tauto.
Qed.

(** ** What the evaluation reads of the bindings *)

Lemma evalArgs_agree M vars1 vars2 args :
  Forall (fun a => evalAst M a vars1 = evalAst M a vars2) args ->
  evalArgs M vars1 args = evalArgs M vars2 args.
Proof.
  induction 1 as [|a args Ha _ IH]; cbn [evalArgs]; [reflexivity|].
  now rewrite Ha, IH.
Qed.

(** [collectVars] finds every variable the evaluation looks up: two sets
    of bindings that agree on the collected names give the same result,
    value or failure. *)
Theorem evaluation_reads_collected M a (vars1 vars2 : gmap string string) :
  (forall n, In n (collectVars a []) -> vars1 !! ToString n = vars2 !! ToString n) ->
  evalAst M a vars1 = evalAst M a vars2.
Proof.
  induction a as [v|name|name args IH|arg IH|op lhs rhs IHl IHr] using ast_induction;
    intros Hsame.
  - reflexivity.
  - cbn [evalAst]. rewrite (Hsame name); [reflexivity|].
    cbn [collectVars]. apply in_set_add. now right.
  - rewrite !evalAst_call. cbv zeta.
    rewrite (evalArgs_agree M vars1 vars2 args); [reflexivity|].
    rewrite Forall_forall in IH |- *. intros a Ha. apply IH; [exact Ha|].
    intros n Hn. apply Hsame. rewrite collectVars_call.
    apply (collectVars_each_in args); [apply Forall_forall; intros; apply collectVars_in|].
    right. eauto.
  - cbn [evalAst]. rewrite IH; [reflexivity|exact Hsame].
  - assert (Hl : evalAst M lhs vars1 = evalAst M lhs vars2).
    { apply IHl. intros n Hn. apply Hsame. cbn [collectVars].
      apply collectVars_in. left. exact Hn. }
    assert (Hr : evalAst M rhs vars1 = evalAst M rhs vars2).
    { apply IHr. intros n Hn. apply Hsame. cbn [collectVars].
      apply collectVars_in. right. exact Hn. }
    destruct op; cbn [evalAst]; now rewrite Hl, Hr.
Qed.

Lemma evaluation_reads_collected_witness :
  evalAst Math.series (Bin Add (Var (Some "x")) (Num (real 1)))
    {[ "x" := "2i" ]}
  = evalAst Math.series (Bin Add (Var (Some "x")) (Num (real 1)))
    (<[ "y" := "7" ]> {[ "x" := "2i" ]}).
Proof.
  apply evaluation_reads_collected.
  intros n [<-|[]]. reflexivity.
Defined.

Lemma evalArgs_err M vars args e :
  evalArgs M vars args = Err e -> exists a, In a args /\ evalAst M a vars = Err e.
Proof.
  induction args as [|a args IH]; cbn [evalArgs]; [discriminate|].
  destruct (evalAst M a vars) as [v|e'] eqn:Ha; cbn [bind].
  - destruct (evalArgs M vars args) as [vs|e''] eqn:Hargs; cbn [bind]; [discriminate|].
    intros [= <-]. destruct (IH eq_refl) as (b & Hb & He). exists b. cbn [In]. auto.
  - intros [= <-]. exists a. cbn [In]. auto.
Qed.

Lemma div_err x y e : Complex.div x y = Err e -> e = DivisionByZero InComplexDiv.
Proof.
  unfold Complex.div. destruct (JS.strict_eq _ 0); [now intros [= <-]|discriminate].
Qed.

(** When the evaluation fails for an unbound variable, the name it reports
    is one of the collected names, and that name is indeed not bound. So
    once every collected name is bound, no evaluation fails this way. *)
Theorem unbound_failure_is_collected M a (vars : gmap string string) s :
  evalAst M a vars = Err (UnboundVariable s) ->
  vars !! s = None /\ exists n, In n (collectVars a []) /\ ToString n = s.
Proof.
  induction a as [v|name|name args IH|arg IH|op lhs rhs IHl IHr] using ast_induction.
  - discriminate.
  - cbn [evalAst]. destruct (vars !! ToString name) as [text|] eqn:Hv.
    + intros H. apply fromString_err in H. discriminate H.
    + intros [= <-]. split; [exact Hv|]. exists name. split; [|reflexivity].
      cbn [collectVars]. apply in_set_add. now right.
  - rewrite evalAst_call. cbv zeta.
    destruct (evalArgs M vars args) as [vs|e] eqn:Hargs; cbn [bind].
    + destruct (_ || _); [destruct vs as [|z [|]]; discriminate|].
      destruct (_ || _); [destruct vs as [|z [|]]; discriminate|discriminate].
    + intros [= ->]. apply evalArgs_err in Hargs as (a & Ha & He).
      rewrite Forall_forall in IH. destruct (IH a Ha He) as (Hv & n & Hn & Hs).
      split; [exact Hv|]. exists n. split; [|exact Hs].
      rewrite collectVars_call.
      apply (collectVars_each_in args); [apply Forall_forall; intros; apply collectVars_in|].
      right. eauto.
  - cbn [evalAst]. destruct (evalAst M arg vars) as [v|e]; cbn [bind]; [discriminate|].
    intros [= ->]. exact (IH eq_refl).
  - intros H.
    assert (Hsub : evalAst M lhs vars = Err (UnboundVariable s)
                   \/ evalAst M rhs vars = Err (UnboundVariable s)).
    { destruct op; cbn [evalAst] in H;
        destruct (evalAst M lhs vars) as [x|ex], (evalAst M rhs vars) as [y|ey];
        cbn [bind] in H; auto; try discriminate H;
        try (destruct (_ && _); try discriminate H; cbn [bind] in H; auto);
        try (apply div_err in H; discriminate H);
        try (destruct (negb _); discriminate H). }
    destruct Hsub as [Hl|Hr].
    + destruct (IHl Hl) as (Hv & n & Hn & Hs). split; [exact Hv|].
      exists n. split; [|exact Hs]. cbn [collectVars]. apply collectVars_in. now left.
    + destruct (IHr Hr) as (Hv & n & Hn & Hs). split; [exact Hv|].
      exists n. split; [|exact Hs]. cbn [collectVars]. apply collectVars_in. now right.
Qed.

Lemma unbound_failure_is_collected_witness :
  ({[ "x" := "1" ]} : gmap string string) !! "y" = None
  /\ exists n, In n (collectVars (Bin Mul (Var (Some "x")) (Var (Some "y"))) [])
               /\ ToString n = "y".
Proof.
  apply (unbound_failure_is_collected Math.series). vm_compute. reflexivity.
Defined.

(** ** The set of names *)

Lemma nodup_snoc (x : option string) set :
  List.NoDup set -> ~ In x set -> List.NoDup (set ++ [x]).
Proof.
  induction 1 as [|y set Hy Hset IH]; cbn [app]; intros Hx.
  - constructor; [intros []|constructor].
  - constructor.
    + rewrite in_app_iff. cbn [In]. intros [H|[H|[]]]; [auto|].
      apply Hx. left. symmetry. exact H.
    + apply IH. intros H. apply Hx. now right.
Qed.

(** A tree only appends to a set, and never a name that is in it. *)
Definition extends_set (a : ast) : Prop :=
  forall set, List.NoDup set ->
    List.NoDup (collectVars a set) /\ exists added, collectVars a set = set ++ added.

Lemma set_add_extends x set :
  List.NoDup set ->
  List.NoDup (set_add x set) /\ exists added, set_add x set = set ++ added.
Proof.
  intros Hset. unfold set_add. destruct (existsb (name_eqb x) set) eqn:Hx.
  - split; [exact Hset|]. exists []. now rewrite app_nil_r.
  - split; [|now exists [x]]. apply nodup_snoc; [exact Hset|].
    intros H. apply existsb_name in H. congruence.
Qed.

Lemma collectVars_each_extends args :
  Forall extends_set args ->
  forall set, List.NoDup set ->
    List.NoDup (collectVars_each args set)
    /\ exists added, collectVars_each args set = set ++ added.
Proof.
  induction 1 as [|a args Ha _ IH]; intros set Hset; cbn [collectVars_each fold_left].
  - split; [exact Hset|]. exists []. now rewrite app_nil_r.
  - fold (collectVars_each args (collectVars a set)).
    destruct (Ha set Hset) as [Hnd (l1 & Hl1)].
    destruct (IH _ Hnd) as [Hnd' (l2 & Hl2)]. split; [exact Hnd'|].
    exists (l1 ++ l2). now rewrite Hl2, Hl1, app_assoc.
Qed.

(** [collectVars] keeps its set a set, in the order of first occurrence:
    the names already there stay in place, the new ones come after them,
    and none is entered twice, however often it occurs in the tree. *)
Theorem collectVars_keeps_set a set :
  List.NoDup set ->
  List.NoDup (collectVars a set) /\ exists added, collectVars a set = set ++ added.
Proof.
  revert set.
  induction a as [v|name|name args IH|arg IH|op lhs rhs IHl IHr] using ast_induction;
    intros set Hset.
  - split; [exact Hset|]. exists []. cbn [collectVars]. now rewrite app_nil_r.
  - apply set_add_extends, Hset.
  - rewrite collectVars_call.
    destruct (collectVars_each_extends args IH set Hset) as [Hnd (l1 & Hl1)].
    destruct (collectVars_each_extends args IH _ Hnd) as [Hnd' (l2 & Hl2)].
    split; [exact Hnd'|]. exists (l1 ++ l2). now rewrite Hl2, Hl1, app_assoc.
  - apply IH, Hset.
  - cbn [collectVars].
    destruct (IHl set Hset) as [Hnd (l1 & Hl1)].
    destruct (IHr _ Hnd) as [Hnd' (l2 & Hl2)].
    split; [exact Hnd'|]. exists (l1 ++ l2). now rewrite Hl2, Hl1, app_assoc.
Qed.

Lemma collectVars_keeps_set_witness :
  List.NoDup (collectVars (Bin Mul (Var (Some "y")) (Call "conj" [Var (Some "x"); Var (Some "y")]))
                [Some "x"])
  /\ exists added,
       collectVars (Bin Mul (Var (Some "y")) (Call "conj" [Var (Some "x"); Var (Some "y")]))
         [Some "x"]
       = [Some "x"] ++ added.
Proof.
  apply collectVars_keeps_set. constructor; [intros []|constructor].
Defined.

(** ** Results without [NaN] *)

(** The literal at the root of a tree, if the root is one, has no [NaN]. *)
Definition sound_literal (a : ast) : Prop :=
  match a with
  | Num value =>
      JS.isNaN (Complex.re value) = false /\ JS.isNaN (Complex.im value) = false
  | _ => True
  end.

Lemma fromString_sound s z :
  Complex.fromString s = Ok z ->
  JS.isNaN (Complex.re z) = false /\ JS.isNaN (Complex.im z) = false.
Proof.
  destruct (fromString_cases s) as [[_ ->]|[_ (a & b & ->)]]; [discriminate|].
  intros [= <-]. apply new_not_nan.
Qed.

Section ParserLiterals.
Variable tokens : list string.

Lemma parser_literals fuel :
  (forall pos a pos', parsePrimary tokens fuel pos = Ok (a, pos') -> sound_literal a) /\
  (forall args pos a pos', parseArgs tokens fuel args pos = Ok (a, pos') -> True) /\
  (forall pos a pos', parsePower tokens fuel pos = Ok (a, pos') -> sound_literal a) /\
  (forall lhs pos a pos', loopPower tokens fuel lhs pos = Ok (a, pos') ->
     sound_literal lhs -> sound_literal a) /\
  (forall pos a pos', parseMulDiv tokens fuel pos = Ok (a, pos') -> sound_literal a) /\
  (forall node pos a pos', loopMulDiv tokens fuel node pos = Ok (a, pos') ->
     sound_literal node -> sound_literal a) /\
  (forall pos a pos', parseAddSub tokens fuel pos = Ok (a, pos') -> sound_literal a) /\
  (forall node pos a pos', loopAddSub tokens fuel node pos = Ok (a, pos') ->
     sound_literal node -> sound_literal a).
Proof.
  induction fuel as [|fuel (IHp & IHa & IHw & IHlw & IHm & IHlm & IHs & IHls)].
  { repeat split; intros; discriminate. }
  repeat split; intros until pos'; intros H;
    cbn [parsePrimary parseArgs parsePower loopPower parseMulDiv loopMulDiv
         parseAddSub loopAddSub] in H;
    invert_bodies; intros;
    repeat match goal with
    | E : Complex.fromString _ = Ok _ |- _ => apply fromString_sound in E
    | E : parsePrimary _ _ _ = Ok _ |- _ => apply IHp in E
    | E : parsePower _ _ _ = Ok _ |- _ => apply IHw in E
    | E : parseMulDiv _ _ _ = Ok _ |- _ => apply IHm in E
    | E : parseAddSub _ _ _ = Ok _ |- _ => apply IHs in E
    | E : loopPower _ _ _ _ = Ok _ |- _ => apply IHlw in E; [|first [exact I|assumption]]
    | E : loopMulDiv _ _ _ _ = Ok _ |- _ => apply IHlm in E; [|first [exact I|assumption]]
    | E : loopAddSub _ _ _ _ = Ok _ |- _ => apply IHls in E; [|first [exact I|assumption]]
    end;
    try assumption; try exact I; try (cbn [sound_literal]; apply new_not_nan).
Qed.
End ParserLiterals.

(** The value of an evaluation has no [NaN] in it, unless the tree is a
    literal that has one. *)
Lemma evalAst_sound M a vars z :
  sound_literal a -> evalAst M a vars = Ok z ->
  JS.isNaN (Complex.re z) = false /\ JS.isNaN (Complex.im z) = false.
Proof.
  destruct a as [v|name|name args|arg|op lhs rhs]; intros Hlit.
  - now intros [= <-].
  - cbn [evalAst]. destruct (vars !! ToString name); [|discriminate].
    apply fromString_sound.
  - rewrite evalAst_call. cbv zeta.
    destruct (evalArgs M vars args) as [vs|e]; cbn [bind]; [|discriminate].
    destruct (_ || _).
    { destruct vs as [|v [|]]; try discriminate. intros [= <-]. apply new_not_nan. }
    destruct (_ || _); [|discriminate].
    destruct vs as [|v [|]]; try discriminate. intros [= <-]. apply new_not_nan.
  - cbn [evalAst]. destruct (evalAst M arg vars); cbn [bind]; [|discriminate].
    intros [= <-]. apply new_not_nan.
  - destruct op; cbn [evalAst];
      destruct (evalAst M lhs vars) as [x|ex], (evalAst M rhs vars) as [y|ey];
      cbn [bind]; try discriminate;
      try (intros [= <-]; apply new_not_nan).
    + destruct (_ && _); [discriminate|]. cbn [bind]. unfold Complex.div.
      destruct (JS.strict_eq _ 0); [discriminate|]. intros [= <-]. apply new_not_nan.
    + destruct (_ && _); discriminate.
    + destruct (negb _); [discriminate|]. intros [= <-]. apply new_not_nan.
Qed.

(** Whatever the text and the bindings, the value of an expression has no
    [NaN] component: where the arithmetic gives [NaN], the result shows 0. *)
Theorem run_never_nan M input vars z :
  run M input vars = Ok z ->
  JS.isNaN (Complex.re z) = false /\ JS.isNaN (Complex.im z) = false.
Proof.
  unfold run, parse.
  destruct (tokenize input) as [tokens|e]; cbn [bind]; [|discriminate].
  unfold parseExpression.
  destruct (parseAddSub tokens (parse_fuel tokens) 0) as [[a pos]|e] eqn:E;
    cbn [bind]; [|discriminate].
  destruct (pos <? length tokens)%nat; cbn [bind]; [discriminate|].
  apply evalAst_sound.
  exact (proj1 (proj2 (proj2 (proj2 (proj2 (proj2 (proj2
           (parser_literals tokens (parse_fuel tokens)))))))) _ _ _ E).
Qed.

Lemma run_never_nan_witness :
  JS.isNaN (Complex.re (real 0)) = false /\ JS.isNaN (Complex.im (real 0)) = false.
Proof.
  apply (run_never_nan Math.series "x - x" {[ "x" := "1e999" ]}).
  vm_compute. reflexivity.
Defined.

(** ** An expression tested against itself *)

(** The components of [v] are finite numbers. *)
Definition finite_value (v : Complex.t) : bool :=
  PrimFloat.is_finite (Complex.re v) && PrimFloat.is_finite (Complex.im v).

Lemma approxEquals_itself v :
  Complex.approxEquals v v equivalence_eps = finite_value v.
Proof.
  unfold Complex.approxEquals, finite_value. rewrite !near_itself.
  replace (PrimFloat.ltb 0 equivalence_eps) with true by (vm_compute; reflexivity).
  now rewrite !andb_true_r.
Qed.

(** A tree tested against itself is reported equivalent exactly when no
    round evaluates it to a value with an infinite component: an infinite
    value is not approximately equal to itself, so such a round makes the
    tester report that the expression differs from itself. *)
Theorem self_comparison M Object_prototype random a trials :
  fst (expressionsEquivalent M Object_prototype random a a trials) = Equal <->
  forall t v, (t < trials)%nat ->
    evalAst M a (visible Object_prototype (round_assignment random a a t)) = Ok v ->
    finite_value v = true.
Proof.
  unfold expressionsEquivalent. fold (tested_names a a).
  pose proof (trials_loop_spec M Object_prototype random a a trials 0) as H.
  cbn [Nat.mul Nat.add] in H.
  destruct (trials_loop M Object_prototype random a a (tested_names a a) trials 0)
    as [[|assignment s1 s2] drawn]; cbn [fst].
  - destruct H as [Hnone _]. split; [intros _|reflexivity].
    intros t v Ht Hv. rewrite <- approxEquals_itself.
    destruct (Complex.approxEquals v v equivalence_eps) eqn:E; [reflexivity|].
    destruct (Hnone t); [lia|]. exists v, v. repeat split; assumption.
  - destruct H as (t & v1 & v2 & Ht & _ & (H1 & H2 & Hd) & _).
    split; [discriminate|]. intros Hfin.
    assert (v2 = v1) as -> by congruence.
    rewrite approxEquals_itself, (Hfin t v1) in Hd; [discriminate|lia|assumption].
Qed.

(** An infinite literal tested against itself is reported different in
    the first round. *)
Example infinite_literal_differs_from_itself :
  expressionsEquivalent Math.series ∅ (fun _ => 0.5%float)
    (Num (real infinity)) (Num (real infinity)) 3
  = (NotEqual ∅ "Infinity" "Infinity", 0%nat).
Proof. vm_compute. reflexivity. Qed.
